(** * cloudeventexporter: a shallow embedding of [exporter.go]

    The exporter receives batches of Kubernetes event logs, prunes them by
    the [k8s.event.reason] attribute, turns every remaining record into a
    [cloudeventdata] value, hands it to a pool of workers over a buffered
    channel, and every worker posts one CloudEvent per value.

    Layout of the development:
    - [Go]      : the pieces of the Go language and standard library the
                  exporter calls (byte strings, UTF-8, [strconv], [strings],
                  [fmt.Sprintf], [unicode.IsSpace]);
    - [pcommon], [plog] : the pdata containers the exporter reads and prunes;
    - [Exporter]: the package itself (package variables, [newExporter],
                  [pushLogs], [configureCeType], [exportMessage]);
    - [Sched]   : the interleavings of the producer and the workers around
                  the channel and the variable whose address is sent;
    - [Json]    : a reader for the compact JSON objects the body is meant
                  to be;
    - [Spec], [Samples] : the vocabulary of the properties and the concrete
                  configurations, batches and responses they are tried on;
    - [FilterFacts], [PushFacts], [ConstructionFacts], [Utf8Facts],
      [EscapeFacts] : lemmas on the parts;
    - [BatchTheorems], [HeaderTheorems], [DeliveryTheorems], [Departures] :
                  the properties of the pipeline.

    Go strings are byte strings: they are modelled by [string], whose
    characters are the 256 byte values.  The package variables are threaded
    explicitly as a [Globals] record; what a function does to the outside
    (channel sends, requests, log lines) is returned as a list of effects. *)

From Stdlib Require Import ZArith List String Ascii Bool Lia.
From Stdlib Require Import Numbers.DecimalString.
From Stdlib Require Numbers.DecimalFacts Numbers.DecimalPos.
Import ListNotations.
Local Open Scope list_scope.
Local Open Scope string_scope.
Local Open Scope Z_scope.

(* ================================================================== *)
(** * Go primitives *)
(* ================================================================== *)

Module Go.

(** ** Bytes and machine integers *)

Definition byteZ (a : ascii) : Z := Z.of_N (N_of_ascii a).
Definition byte_of_Z (z : Z) : ascii := ascii_of_N (Z.to_N z).

(** The double quote and the backslash, as bytes and as one-byte strings. *)
Definition dquote : ascii := "034"%char.
Definition backslash : ascii := "092"%char.
Definition DQ : string := String dquote EmptyString.
Definition BS : string := String backslash EmptyString.

(** Two's complement wrap-around of a signed 64-bit integer ([int64], and
    [int] on the 64-bit targets the collector is built for). *)
Definition int64 (z : Z) : Z := (z + 2 ^ 63) mod 2 ^ 64 - 2 ^ 63.
(** The conversion [int(x)] of an [int64]. *)
Definition int (z : Z) : Z := int64 z.
Definition MinInt64 : Z := - 2 ^ 63.
Definition MaxInt64 : Z := 2 ^ 63 - 1.

(** [len(s)] *)
Definition len (s : string) : Z := Z.of_nat (String.length s).

(** ** strconv *)

(** [strconv.FormatInt(i, 10)], also the rendering of the [%d] verb. *)
Definition Itoa (i : Z) : string := NilZero.string_of_int (Z.to_int i).

Definition FormatBool (b : bool) : string := if b then "true" else "false".

Definition digit (a : ascii) : option Z :=
  let b := byteZ a in
  if (48 <=? b) && (b <=? 57) then Some (b - 48) else None.

(** The digits of a decimal numeral, most significant first; [None] as soon
    as one byte is not a digit. *)
Fixpoint digits_value (acc : Z) (s : string) : option Z :=
  match s with
  | EmptyString => Some acc
  | String a s' =>
      match digit a with
      | Some d => digits_value (10 * acc + d) s'
      | None => None
      end
  end.

(** [strconv.Atoi]: an optional sign, then at least one decimal digit and
    nothing else; a value outside of [int] is a range error. *)
Definition Atoi (s : string) : option Z :=
  let unsigned (t : string) :=
    match t with
    | EmptyString => None
    | _ => digits_value 0 t
    end in
  let signed :=
    match s with
    | String "+" t => unsigned t
    | String "-" t => option_map Z.opp (unsigned t)
    | _ => unsigned s
    end in
  match signed with
  | Some v => if (MinInt64 <=? v) && (v <=? MaxInt64) then Some v else None
  | None => None
  end.

(** ** strings *)

(** One pass over [s] that looks for the non-empty pattern [old] at every
    position that is not inside a previous match; [skip] counts the bytes
    of the current match still to be stepped over. *)
Fixpoint replace_from (old new : string) (skip : nat) (s : string) : string :=
  match s with
  | EmptyString => EmptyString
  | String c s' =>
      match skip with
      | S k => replace_from old new k s'
      | O =>
          if prefix old s
          then new ++ replace_from old new (Nat.pred (String.length old)) s'
          else String c (replace_from old new 0 s')
      end
  end.

(** [strings.ReplaceAll(s, old, new)] for a non-empty [old], the only kind
    the exporter passes. *)
Definition ReplaceAll (s old new : string) : string := replace_from old new 0 s.

(** The fields of [s] between the occurrences of the non-empty separator;
    the head of the result is the field being read. *)
Fixpoint split_from (sep : string) (skip : nat) (s : string) : list string :=
  match s with
  | EmptyString => [EmptyString]
  | String c s' =>
      match skip with
      | S k => split_from sep k s'
      | O =>
          if prefix sep s
          then EmptyString :: split_from sep (Nat.pred (String.length sep)) s'
          else match split_from sep 0 s' with
               | f :: fs => String c f :: fs
               | [] => [String c EmptyString]
               end
      end
  end.

(** [strings.Split(s, sep)] for a non-empty [sep], the only kind the exporter
    passes. *)
Definition Split (s sep : string) : list string := split_from sep 0 s.

(** ** fmt.Sprintf, for the verbs [%s] and [%d]

    Every call of the exporter passes as many operands as its format has
    verbs; the note Go appends for operands left over is not produced. *)

Inductive fmtArg : Type :=
| ArgS (s : string)
| ArgD (i : Z).

Fixpoint Sprintf (format : string) (args : list fmtArg) : string :=
  match format with
  | EmptyString => EmptyString
  | String "%" (String "s" rest) =>
      match args with
      | ArgS s :: args' => s ++ Sprintf rest args'
      | ArgD i :: args' => "%!s(int=" ++ Itoa i ++ ")" ++ Sprintf rest args'
      | [] => "%!s(MISSING)" ++ Sprintf rest []
      end
  | String "%" (String "d" rest) =>
      match args with
      | ArgD i :: args' => Itoa i ++ Sprintf rest args'
      | ArgS s :: args' => "%!d(string=" ++ s ++ ")" ++ Sprintf rest args'
      | [] => "%!d(MISSING)" ++ Sprintf rest []
      end
  | String c rest => String c (Sprintf rest args)
  end.

(** ** unicode/utf8 *)

Definition rune : Type := Z.
Definition RuneError : rune := 65533.   (* U+FFFD *)
Definition MaxRune : rune := 1114111.   (* U+10FFFF *)

(** A continuation byte, 0x80..0xBF. *)
Definition cont (b : Z) : bool := (128 <=? b) && (b <=? 191).

(** The range accepted for the second byte after a three-byte lead [b0]
    (0xE0 and 0xED narrow it: no overlong forms, no surrogates) and after a
    four-byte lead (0xF0 and 0xF4 narrow it). *)
Definition second3 (b0 b1 : Z) : bool :=
  if b0 =? 224 then (160 <=? b1) && (b1 <=? 191)
  else if b0 =? 237 then (128 <=? b1) && (b1 <=? 159)
  else cont b1.
Definition second4 (b0 b1 : Z) : bool :=
  if b0 =? 240 then (144 <=? b1) && (b1 <=? 191)
  else if b0 =? 244 then (128 <=? b1) && (b1 <=? 143)
  else cont b1.

(** [utf8.DecodeRuneInString]: the first rune of [s] and its width in bytes.
    An ill-formed or truncated sequence decodes to [(RuneError, 1)], the
    empty string to [(RuneError, 0)]. *)
Definition DecodeRuneInString (s : string) : rune * nat :=
  match s with
  | EmptyString => (RuneError, 0%nat)
  | String a0 s1 =>
      let b0 := byteZ a0 in
      if b0 <? 128 then (b0, 1%nat)
      else
        match s1 with
        | EmptyString => (RuneError, 1%nat)
        | String a1 s2 =>
            let b1 := byteZ a1 in
            if (194 <=? b0) && (b0 <=? 223) then
              if cont b1
              then ((b0 - 192) * 64 + (b1 - 128), 2%nat)
              else (RuneError, 1%nat)
            else if (224 <=? b0) && (b0 <=? 239) then
              match s2 with
              | String a2 _ =>
                  let b2 := byteZ a2 in
                  if second3 b0 b1 && cont b2
                  then ((b0 - 224) * 4096 + (b1 - 128) * 64 + (b2 - 128), 3%nat)
                  else (RuneError, 1%nat)
              | EmptyString => (RuneError, 1%nat)
              end
            else if (240 <=? b0) && (b0 <=? 244) then
              match s2 with
              | String a2 (String a3 _) =>
                  let b2 := byteZ a2 in
                  let b3 := byteZ a3 in
                  if second4 b0 b1 && cont b2 && cont b3
                  then ((b0 - 240) * 262144 + (b1 - 128) * 4096
                        + (b2 - 128) * 64 + (b3 - 128), 4%nat)
                  else (RuneError, 1%nat)
              | _ => (RuneError, 1%nat)
              end
            else (RuneError, 1%nat)
        end
  end.

Fixpoint take (n : nat) (s : string) : string :=
  match n, s with
  | S n', String c s' => String c (take n' s')
  | _, _ => EmptyString
  end.

Fixpoint drop (n : nat) (s : string) : string :=
  match n, s with
  | S n', String _ s' => drop n' s'
  | _, _ => s
  end.

(** What [for _, ch := range s] steps through: every rune of [s] with the
    bytes it was decoded from.  Every step consumes at least one byte, so
    [length s] steps always reach the end of [s]. *)
Fixpoint range_steps (n : nat) (s : string) : list (rune * string) :=
  match n with
  | O => []
  | S n' =>
      match s with
      | EmptyString => []
      | _ =>
          let (r, w) := DecodeRuneInString s in
          (r, take w s) :: range_steps n' (drop w s)
      end
  end.

Definition range (s : string) : list (rune * string) :=
  range_steps (String.length s) s.

Definition runes (s : string) : list rune := map fst (range s).

(** [utf8.ValidString]: no step of the decoding is an ill-formed byte. *)
Definition ill_formed (step : rune * string) : bool :=
  (fst step =? RuneError) && (String.length (snd step) =? 1)%nat.

Definition ValidString (s : string) : bool :=
  forallb (fun step => negb (ill_formed step)) (range s).

Definition bytes3 (r : rune) : string :=
  String (byte_of_Z (224 + r / 4096))
    (String (byte_of_Z (128 + (r / 64) mod 64))
       (String (byte_of_Z (128 + r mod 64)) EmptyString)).

(** [utf8.AppendRune], which [strings.Builder.WriteRune] appends: negative
    values, surrogates and values above [MaxRune] are written as U+FFFD. *)
Definition EncodeRune (r : rune) : string :=
  if (0 <=? r) && (r <? 128) then String (byte_of_Z r) EmptyString
  else if (0 <=? r) && (r <? 2048) then
    String (byte_of_Z (192 + r / 64))
      (String (byte_of_Z (128 + r mod 64)) EmptyString)
  else if (r <? 0) || (MaxRune <? r) || ((55296 <=? r) && (r <=? 57343))
  then bytes3 RuneError
  else if r <? 65536 then bytes3 r
  else
    String (byte_of_Z (240 + r / 262144))
      (String (byte_of_Z (128 + (r / 4096) mod 64))
         (String (byte_of_Z (128 + (r / 64) mod 64))
            (String (byte_of_Z (128 + r mod 64)) EmptyString))).

(** [string(b)] for a byte [b]: the UTF-8 form of the code point [b]. *)
Definition string_of_byte (b : ascii) : string := EncodeRune (byteZ b).

(** [unicode.IsSpace]: the Latin-1 cases of its switch, then the
    [White_Space] range table. *)
Definition IsSpace (r : rune) : bool :=
  if (0 <=? r) && (r <=? 255) then
    ((9 <=? r) && (r <=? 13)) || (r =? 32) || (r =? 133) || (r =? 160)
  else
    (r =? 5760) || ((8192 <=? r) && (r <=? 8202)) || (r =? 8232)
    || (r =? 8233) || (r =? 8239) || (r =? 8287) || (r =? 12288).

End Go.

(* ================================================================== *)
(** * pdata: attribute values, attribute maps and log batches *)
(* ================================================================== *)

Module pcommon.

(** A pdata value.  The exporter only renders values as text and reads
    integers; the kinds whose text is produced by a float, base64 or JSON
    printer (double, bytes, map, slice) are kept as [ValueOther], which
    carries that text. *)
Inductive Value : Type :=
| ValueEmpty
| ValueStr (s : string)
| ValueInt (i : Z)
| ValueBool (b : bool)
| ValueOther (text : string).

Definition AsString (v : Value) : string :=
  match v with
  | ValueEmpty => EmptyString
  | ValueStr s => s
  | ValueInt i => Go.Itoa (Go.int64 i)
  | ValueBool b => Go.FormatBool b
  | ValueOther text => text
  end.

(** [Value.Int()]: the integer payload, zero for every other kind. *)
Definition Int (v : Value) : Z :=
  match v with
  | ValueInt i => Go.int64 i
  | _ => 0
  end.

(** A pdata map is a slice of key/value pairs; [Get] returns the first pair
    with the key. *)
Definition Map : Type := list (string * Value).

Fixpoint Get (m : Map) (key : string) : option Value :=
  match m with
  | [] => None
  | (k, v) :: m' => if (k =? key)%string then Some v else Get m' key
  end.

End pcommon.

Module plog.

Record LogRecord : Type := mkLogRecord {
  Body : pcommon.Value;
  Attributes : pcommon.Map
}.

Record ScopeLogs : Type := mkScopeLogs {
  Scope : string;
  LogRecords : list LogRecord
}.

Record ResourceLogs : Type := mkResourceLogs {
  Resource : pcommon.Map;
  ScopeLogsOf : list ScopeLogs
}.

(** [plog.Logs]: the slice returned by [ld.ResourceLogs()]. *)
Definition Logs : Type := list ResourceLogs.

(** [RemoveIf] on a pdata slice: one pass in order, every element for which
    the callback answers [true] is dropped.  The callback receives the
    element itself and may prune it, so it returns the element as it left it
    together with its answer. *)
Fixpoint RemoveIf {A : Type} (f : A -> A * bool) (es : list A) : list A :=
  match es with
  | [] => []
  | e :: es' =>
      let (e', remove) := f e in
      if remove then RemoveIf f es' else e' :: RemoveIf f es'
  end.

(** Every record of a batch, in the order of the three nested loops. *)
Definition records_of_scope (sl : ScopeLogs) : list LogRecord := LogRecords sl.
Definition records_of_resource (rl : ResourceLogs) : list LogRecord :=
  flat_map records_of_scope (ScopeLogsOf rl).
Definition all_records (ld : Logs) : list LogRecord :=
  flat_map records_of_resource ld.

End plog.

(* ================================================================== *)
(** * The exporter package *)
(* ================================================================== *)

Module Exporter.
Import Go pcommon plog.

(** ** Constants *)

(** Cloud-event body skeleton: the six keys, each string value between
    double quotes, the count bare. *)
Definition key_value (key verb : string) : string := DQ ++ key ++ DQ ++ ":" ++ verb.
Definition CE_DATA_META_BODY : string :=
  "{" ++ key_value "reason" (DQ ++ "%s" ++ DQ)
  ++ "," ++ key_value "start_time" (DQ ++ "%s" ++ DQ)
  ++ "," ++ key_value "name" (DQ ++ "%s" ++ DQ)
  ++ "," ++ key_value "namespace" (DQ ++ "%s" ++ DQ)
  ++ "," ++ key_value "count" "%d"
  ++ "," ++ key_value "message" (DQ ++ "%s" ++ DQ)
  ++ "}".

Definition HEADER_CE_ID := "Ce-Id".
Definition HEADER_CE_TYPE := "Ce-Type".
Definition HEADER_CE_SOURCE := "Ce-Source".
Definition HEADER_CE_SPECVERSION := "Ce-Specversion".
Definition HEADER_CONTENT_TYPE := "Content-Type".
Definition HEADER_RETRY_AFTER := "Retry-After".
Definition CONTENT_TYPE := "application/json".

Definition ATTR_EVENT_COUNT := "k8s.event.count".
Definition ATTR_EVENT_NAME := "k8s.event.name".
Definition ATTR_EVENT_NS := "k8s.namespace.name".
Definition ATTR_EVENT_REASON := "k8s.event.reason".
Definition ATTR_EVENT_START_TIME := "k8s.event.start_time".
Definition ATTR_EVENT_UID := "k8s.event.uid".

Definition CHAN_SZ : nat := 2.
Definition FETCH_ATTR : bool := true.
Definition RETRY_ENABLED : bool := false.

Definition StatusTooManyRequests : Z := 429.
Definition StatusServiceUnavailable : Z := 503.
Definition Second : Z := 1000000000.   (* [time.Second], in nanoseconds *)

(** ** Types *)

(** Modelled from the spec: the declaration of [Config] is not part of the
    exporter source; it is given the fields [exporter.go] reads (the
    endpoint, the filter expression, and under [Ce] the event-type prefix,
    the event source and the spec-version string). *)
Record CeConfig : Type := mkCeConfig {
  AppendType : string;
  Source : string;
  SpecVersion : string
}.

Record Config : Type := mkConfig {
  Endpoint : string;
  Filter : string;
  Ce : CeConfig
}.

Record BuildInfo : Type := mkBuildInfo {
  Description : string;
  Version : string
}.

Record cloudeventTransformExporter : Type := mkExporter {
  config : Config;
  useragent : string;
  source : string
}.

Record cloudeventdata : Type := mkCe {
  count : Z;
  message : string;
  name : string;
  namespace : string;
  reason : string;
  startTime : string;
  uid : string
}.

(** The package-level variables. *)
Record Globals : Type := mkGlobals {
  filters : list string;
  filterAllowAll : bool;
  typeVersion : string
}.

(** Their values when the package is loaded. *)
Definition initGlobals : Globals :=
  {| filters := []; filterAllowAll := false; typeVersion := EmptyString |}.

Inductive result (A : Type) : Type :=
| Ok (a : A)
| Err (msg : string).
Arguments Ok {A} a.
Arguments Err {A} msg.

(** ** newExporter *)

Section Construction.

(** [conf.Validate()], declared with [Config]: its error, if any. *)
Variable Validate : Config -> option string.
(** [runtime.GOOS] and [runtime.GOARCH]. *)
Variables GOOS GOARCH : string.

(** The body of [newExporter] up to its last statement: the globals it
    leaves and the final value of its local [err]. *)
Definition newExporter_body (g : Globals) (conf : Config)
  : Globals * option string :=
  let g1 :=
    match SpecVersion (Ce conf) with
    | String b0 _ =>
        {| filters := filters g; filterAllowAll := filterAllowAll g;
           typeVersion := "v" ++ string_of_byte b0 |}
    | EmptyString => g
    end in
  if 0 <? len (Filter conf) then
    let fs := Split (Filter conf) "|" in
    let g2 := {| filters := fs; filterAllowAll := filterAllowAll g1;
                 typeVersion := typeVersion g1 |} in
    let filtersLen := Z.of_nat (List.length fs) in
    if filtersLen =? 0 then
      (g2, Some (Sprintf
         "some valid fields should be provided in filters ('*', 'Created|Deleted'), provided: %s"
         [ArgS (Filter conf)]))
    else if (filtersLen =? 1) && (hd EmptyString fs =? "*")%string then
      ({| filters := fs; filterAllowAll := true;
          typeVersion := typeVersion g1 |}, None)
    else (g2, None)
  else (g1, None).

(** [newExporter]: a failed validation returns early; otherwise the
    exporter is returned with a nil error, whatever the local [err] holds. *)
Definition newExporter (g : Globals) (conf : Config) (set : BuildInfo)
  : Globals * result cloudeventTransformExporter :=
  match Validate conf with
  | Some e => (g, Err e)
  | None =>
      let (g', _) := newExporter_body g conf in
      let userAgent :=
        Sprintf "%s/%s (%s/%s)"
          [ArgS (Description set); ArgS (Version set); ArgS GOOS; ArgS GOARCH] in
      (g', Ok {| config := conf; useragent := userAgent;
                 source := Source (Ce conf) |})
  end.

End Construction.

(** ** pushLogs *)

(** What [pushLogs] does to the outside, in order: it assigns its one local
    variable [ce], and it sends the address of [ce] on the channel. *)
Inductive producerOp : Type :=
| Assign (v : cloudeventdata)
| SendAddr.

(** Effects of [pushLogs]: the operations performed so far and either a
    value or the error returned. *)
Definition Push (A : Type) : Type := (list producerOp * result A)%type.

Definition ret {A : Type} (a : A) : Push A := ([], Ok a).
Definition fail {A : Type} (msg : string) : Push A := ([], Err msg).
Definition emit (op : producerOp) : Push unit := ([op], Ok tt).
Definition bind {A B : Type} (m : Push A) (f : A -> Push B) : Push B :=
  match m with
  | (ops, Ok a) => let (ops', r) := f a in ((ops ++ ops')%list, r)
  | (ops, Err e) => (ops, Err e)
  end.

Notation "x <- m ;; k" := (bind m (fun x => k))
  (at level 61, m at next level, right associativity).
Notation "m ;;; k" := (bind m (fun _ => k))
  (at level 61, right associativity).

(** A [for] loop over a slice whose body may return from the function. *)
Fixpoint for_each {A : Type} (body : A -> Push unit) (xs : list A) : Push unit :=
  match xs with
  | [] => ret tt
  | x :: xs' => body x ;;; for_each body xs'
  end.

(** The callback of the innermost [RemoveIf]. *)
Definition removeRecord (g : Globals) (lr : LogRecord) : bool :=
  match Get (Attributes lr) ATTR_EVENT_REASON with
  | None => false
  | Some reason =>
      let reasonFound :=
        existsb (fun r => (r =? AsString reason)%string) (filters g) in
      negb reasonFound
  end.

(** The pruning pass at the head of [pushLogs]. *)
Definition filterLogs (g : Globals) (ld : Logs) : Logs :=
  if negb (filterAllowAll g) then
    RemoveIf (fun rl =>
      let sls :=
        RemoveIf (fun sl =>
          let lrs := RemoveIf (fun lr => (lr, removeRecord g lr)) (LogRecords sl) in
          ({| Scope := Scope sl; LogRecords := lrs |},
           (Z.of_nat (List.length lrs) =? 0)))
          (ScopeLogsOf rl) in
      ({| Resource := Resource rl; ScopeLogsOf := sls |},
       (Z.of_nat (List.length sls) =? 0)))
      ld
  else ld.

(** The six lookups and the error text of the strict check. *)
Definition missing_text (ok : bool) (attr : string) : string :=
  if ok then EmptyString else "{" ++ attr ++ "} ".

Definition is_some {A : Type} (o : option A) : bool :=
  match o with Some _ => true | None => false end.

(** The body of the innermost conversion loop for one record. *)
Definition pushRecord (lr : LogRecord) : Push unit :=
  let currentMessage := Body lr in
  if FETCH_ATTR then
    let attrMap := Attributes lr in
    match Get attrMap ATTR_EVENT_COUNT, Get attrMap ATTR_EVENT_NAME,
          Get attrMap ATTR_EVENT_NS, Get attrMap ATTR_EVENT_UID,
          Get attrMap ATTR_EVENT_REASON, Get attrMap ATTR_EVENT_START_TIME with
    | Some eventCount, Some eventName, Some eventNs, Some eventUid,
      Some reason, Some startTime =>
        emit (Assign {| count := int (Int eventCount);
                        message := AsString currentMessage;
                        name := AsString eventName;
                        namespace := AsString eventNs;
                        reason := AsString reason;
                        startTime := AsString startTime;
                        uid := AsString eventUid |}) ;;;
        emit SendAddr
    | eventCount, eventName, eventNs, eventUid, reason, startTime =>
        let overAllErrStr :=
          missing_text (is_some reason) ATTR_EVENT_REASON
          ++ missing_text (is_some startTime) ATTR_EVENT_START_TIME
          ++ missing_text (is_some eventName) ATTR_EVENT_NAME
          ++ missing_text (is_some eventUid) ATTR_EVENT_UID
          ++ missing_text (is_some eventNs) ATTR_EVENT_NS
          ++ missing_text (is_some eventCount) ATTR_EVENT_COUNT in
        fail (Sprintf "Couldn't find %sattributes in the log" [ArgS overAllErrStr])
    end
  else
    emit (Assign {| count := 0;
                    message := AsString currentMessage;
                    name := "name";
                    namespace := "ns";
                    reason := "TestReason";
                    startTime := EmptyString;
                    uid := "fhapohnea-afj-ajfa" |}) ;;;
    emit SendAddr.

Definition pushLogs (g : Globals) (ld : Logs) : Push unit :=
  for_each (fun rl =>
    for_each (fun sl =>
      for_each pushRecord (LogRecords sl))
      (ScopeLogsOf rl))
    (filterLogs g ld).

(** ** configureCeType *)

(** [strings.Builder]: the bytes written so far. *)
Definition WriteString (ret s : string) : string := ret ++ s.
Definition WriteRune (ret : string) (r : rune) : string := ret ++ EncodeRune r.

Definition configureCeType (g : Globals) (pretext reason : string) : string :=
  let ret := EmptyString in
  let ret := WriteString ret pretext in
  let ret := WriteRune ret 46 in                (* '.' *)
  let ret := WriteString ret (typeVersion g) in
  let ret := WriteRune ret 46 in
  fold_left (fun ret ch => if negb (IsSpace ch) then WriteRune ret ch else ret)
    (runes reason) ret.

(** ** exportMessage *)

(** [http.Request] and [http.Response], as far as the worker fills and
    reads them.  [ReqHeader] lists the headers in the order of the [Add]
    calls; a response header maps a canonical key to its values. *)
Record Request : Type := mkRequest {
  Method : string;
  URL : string;
  ReqBody : string;
  ReqHeader : list (string * string)
}.

Record Response : Type := mkResponse {
  StatusCode : Z;
  Header : list (string * list string)
}.

(** [Header.Get]: the first value stored under the key, the empty string
    when there is none. *)
Fixpoint HeaderGet (h : list (string * list string)) (key : string) : string :=
  match h with
  | [] => EmptyString
  | (k, vs) :: h' =>
      if (k =? key)%string then hd EmptyString vs else HeaderGet h' key
  end.

(** The error values the worker builds: a plain message, or the retryable
    signal of [exporterhelper.NewThrottleRetry] with its delay in
    nanoseconds. *)
Inductive goerror : Type :=
| errorString (msg : string)
| throttleRetry (err : goerror) (delay : Z).

(** What one worker does to the outside: it performs a request through the
    client, or it hands the text of an error value to the logger. *)
Inductive effect : Type :=
| HttpDo (req : Request)
| LogError (err : goerror).

(** The body the worker serializes for the event it reads. *)
Definition json_body (ce : cloudeventdata) : string :=
  (* Correct JSON message if it has quotes *)
  let msg := ReplaceAll (message ce) DQ (BS ++ DQ) in
  Sprintf CE_DATA_META_BODY
    [ArgS (reason ce); ArgS (startTime ce); ArgS (name ce);
     ArgS (namespace ce); ArgD (count ce); ArgS msg].

(** The request once [http.NewRequest] has succeeded and the five headers
    are added. *)
Definition newRequest (g : Globals) (e : cloudeventTransformExporter)
    (ce : cloudeventdata) : Request :=
  {| Method := "POST";
     URL := Endpoint (config e);
     ReqBody := json_body ce;
     ReqHeader :=
       [(HEADER_CE_ID, uid ce);
        (HEADER_CE_TYPE, configureCeType g (AppendType (Ce (config e))) (reason ce));
        (HEADER_CE_SOURCE, Source (Ce (config e)));
        (HEADER_CE_SPECVERSION, SpecVersion (Ce (config e)));
        (HEADER_CONTENT_TYPE, CONTENT_TYPE)] |}.

(** The value a request carries under a header name. *)
Fixpoint header_value (h : list (string * string)) (key : string) : option string :=
  match h with
  | [] => None
  | (k, v) :: h' => if (k =? key)%string then Some v else header_value h' key
  end.

Definition formattedErr (e : cloudeventTransformExporter) (res : Response) : goerror :=
  errorString
    (Sprintf "error exporting items, request to %s responded with HTTP Status Code %d"
       [ArgS (Endpoint (config e)); ArgD (StatusCode res)]).

(** The delay the retry branch computes from a response. *)
Definition retryDelay (res : Response) : Z :=
  let retryAfter := 0 in
  let isThrottleError :=
    (StatusCode res =? StatusTooManyRequests)
    || (StatusCode res =? StatusServiceUnavailable) in
  let val := HeaderGet (Header res) HEADER_RETRY_AFTER in
  let retryAfter :=
    if isThrottleError && negb (val =? EmptyString)%string then
      match Atoi val with
      | Some seconds => seconds
      | None => retryAfter
      end
    else retryAfter in
  int64 (retryAfter * Second).     (* time.Duration(retryAfter) * time.Second *)

Section Worker.

(** [http.NewRequest] fails on an endpoint that is not a URL: its error. *)
Variable NewRequestError : string -> option string.
(** [e.client.Do]: a transport error or a response. *)
Variable Do : Request -> result Response.

(** The body of the worker loop for one received pointer, [ce] being what
    the pointer gives when the worker reads through it; [retryEnabled]
    stands for the constant [RETRY_ENABLED]. *)
Definition exportOneWith (retryEnabled : bool) (g : Globals)
    (e : cloudeventTransformExporter) (ce : cloudeventdata) : list effect :=
  match NewRequestError (Endpoint (config e)) with
  | Some err => [LogError (errorString err)]
  | None =>
      let req := newRequest g e ce in
      match Do req with
      | Err err => [HttpDo req; LogError (errorString err)]
      | Ok res =>
          if (200 <=? StatusCode res) && (StatusCode res <=? 299)
          then [HttpDo req]
          else if retryEnabled
          then [HttpDo req; LogError (throttleRetry (formattedErr e res) (retryDelay res))]
          else [HttpDo req; LogError (formattedErr e res)]
      end
  end.

Definition exportOne := exportOneWith RETRY_ENABLED.

(** [exportMessage]: the loop over what the worker receives until the
    channel is closed and drained. *)
Definition exportMessage (g : Globals) (e : cloudeventTransformExporter)
    (received : list cloudeventdata) : list effect :=
  flat_map (exportOne g e) received.

End Worker.

End Exporter.

(* ================================================================== *)
(** * The producer, the channel and the workers *)
(* ================================================================== *)

Module Sched.
Import Exporter.

(** The only address [pushLogs] ever sends: that of its variable [ce]. *)
Inductive addr : Type := addr_ce.

Record state : Type := mkState {
  cell : cloudeventdata;            (* what [ce] holds *)
  todo : list producerOp;           (* what [pushLogs] has still to do *)
  chan : list addr;                 (* [ceChan], oldest element first *)
  workers : list (option addr);     (* the pointer each worker holds, if any *)
  exported : list (nat * cloudeventdata)   (* worker, value it read and sent *)
}.

Definition zero_ce : cloudeventdata :=
  {| count := 0; message := EmptyString; name := EmptyString;
     namespace := EmptyString; reason := EmptyString;
     startTime := EmptyString; uid := EmptyString |}.

(** [start] has spawned [CHAN_SZ] idle workers and [pushLogs] is entered. *)
Definition init (ops : list producerOp) : state :=
  {| cell := zero_ce; todo := ops; chan := [];
     workers := repeat None CHAN_SZ; exported := [] |}.

Definition load (st : state) (p : addr) : cloudeventdata :=
  match p with addr_ce => cell st end.

Fixpoint set_nth {A : Type} (n : nat) (x : A) (l : list A) : list A :=
  match n, l with
  | O, _ :: l' => x :: l'
  | S n', y :: l' => y :: set_nth n' x l'
  | _, [] => []
  end.

(** The worker reads the fields of the event one after the other while it
    builds the request; [Export] reads them all in one step, which leaves
    the fewest interleavings. *)
Inductive action : Type :=
| Producer                (* the next operation of [pushLogs] *)
| Receive (w : nat)       (* worker [w] takes the oldest pointer *)
| Export (w : nat).       (* worker [w] reads through its pointer and posts *)

(** One scheduling step; [None] when the chosen thread cannot move (a send
    on a full channel, a receive on an empty one, a busy or idle worker). *)
Definition step (a : action) (st : state) : option state :=
  match a with
  | Producer =>
      match todo st with
      | [] => None
      | Assign v :: ops =>
          Some {| cell := v; todo := ops; chan := chan st;
                  workers := workers st; exported := exported st |}
      | SendAddr :: ops =>
          if (List.length (chan st) <? CHAN_SZ)%nat
          then Some {| cell := cell st; todo := ops;
                       chan := (chan st ++ [addr_ce])%list;
                       workers := workers st; exported := exported st |}
          else None
      end
  | Receive w =>
      match nth_error (workers st) w, chan st with
      | Some None, p :: ps =>
          Some {| cell := cell st; todo := todo st; chan := ps;
                  workers := set_nth w (Some p) (workers st);
                  exported := exported st |}
      | _, _ => None
      end
  | Export w =>
      match nth_error (workers st) w with
      | Some (Some p) =>
          Some {| cell := cell st; todo := todo st; chan := chan st;
                  workers := set_nth w None (workers st);
                  exported := (exported st ++ [(w, load st p)])%list |}
      | _ => None
      end
  end.

Fixpoint run (schedule : list action) (st : state) : option state :=
  match schedule with
  | [] => Some st
  | a :: schedule' =>
      match step a st with
      | Some st' => run schedule' st'
      | None => None
      end
  end.

(** Nothing is left to do: the producer is through, the channel is empty
    and every worker is idle. *)
Definition quiescent (st : state) : bool :=
  match todo st, chan st with
  | [], [] => forallb (fun w => negb (is_some w)) (workers st)
  | _, _ => false
  end.

End Sched.

(* ================================================================== *)
(** * Reading a compact JSON object *)
(* ================================================================== *)

Module Json.
Import Go.

(** The receiver reads the body as a JSON object whose members are strings
    or integers.  This reader follows the JSON grammar for such objects
    written without white space: a string runs up to the first quote that
    is not escaped, a backslash must start one of the escapes of the
    grammar, control bytes may not occur bare.  A string value is returned
    as it is spelled between its quotes. *)
Inductive jvalue : Type :=
| JString (spelling : string)
| JNumber (z : Z).

Definition is_hex (a : ascii) : bool :=
  let b := byteZ a in
  ((48 <=? b) && (b <=? 57)) || ((65 <=? b) && (b <=? 70))
  || ((97 <=? b) && (b <=? 102)).

Definition simple_escape (a : ascii) : bool :=
  let b := byteZ a in
  (b =? 34) || (b =? 92) || (b =? 47) || (b =? 98) || (b =? 102)
  || (b =? 110) || (b =? 114) || (b =? 116).

Definition cons_fst (c : ascii) (r : option (string * string)) :=
  match r with
  | Some (lit, rest) => Some (String c lit, rest)
  | None => None
  end.

(** The input just after an opening quote: the spelling up to the closing
    quote and what follows it. *)
Fixpoint string_tail (s : string) : option (string * string) :=
  match s with
  | EmptyString => None
  | String c s1 =>
      if byteZ c =? 34 then Some (EmptyString, s1)
      else if byteZ c =? 92 then
        match s1 with
        | String e s2 =>
            if simple_escape e then cons_fst c (cons_fst e (string_tail s2))
            else if byteZ e =? 117 then
              match s2 with
              | String h1 (String h2 (String h3 (String h4 s3))) =>
                  if is_hex h1 && is_hex h2 && is_hex h3 && is_hex h4
                  then cons_fst c (cons_fst e (cons_fst h1 (cons_fst h2
                         (cons_fst h3 (cons_fst h4 (string_tail s3))))))
                  else None
              | _ => None
              end
            else None
        | EmptyString => None
        end
      else if byteZ c <? 32 then None
      else cons_fst c (string_tail s1)
  end.

(** The longest prefix of digits and the rest. *)
Fixpoint span_digits (s : string) : string * string :=
  match s with
  | String c s' =>
      match digit c with
      | Some _ => let (ds, rest) := span_digits s' in (String c ds, rest)
      | None => (EmptyString, s)
      end
  | EmptyString => (EmptyString, EmptyString)
  end.

(** An integer of the grammar: an optional minus sign, then a single zero
    or digits that do not start with zero. *)
Definition integer (s : string) : option (Z * string) :=
  let unsigned (t : string) :=
    let (ds, rest) := span_digits t in
    match ds with
    | EmptyString => None
    | String "0" (String _ _) => None
    | _ => option_map (fun v => (v, rest)) (digits_value 0 ds)
    end in
  match s with
  | String "-" t => option_map (fun vr => (- fst vr, snd vr)) (unsigned t)
  | _ => unsigned s
  end.

Definition value (s : string) : option (jvalue * string) :=
  match s with
  | String c s' =>
      if byteZ c =? 34
      then option_map (fun lr => (JString (fst lr), snd lr)) (string_tail s')
      else option_map (fun vr => (JNumber (fst vr), snd vr)) (integer s)
  | EmptyString => None
  end.

(** The members from the opening quote of a key to the closing brace,
    which must end the input.  Every member consumes input, so [length s]
    rounds are enough for [s]. *)
Fixpoint members (n : nat) (s : string) : option (list (string * jvalue)) :=
  match n with
  | O => None
  | S n' =>
      match s with
      | String q s1 =>
          if byteZ q =? 34 then
            match string_tail s1 with
            | Some (key, String ":" s2) =>
                match value s2 with
                | Some (v, String "," s3) =>
                    option_map (cons (key, v)) (members n' s3)
                | Some (v, String "}" EmptyString) => Some [(key, v)]
                | _ => None
                end
            | _ => None
            end
          else None
      | EmptyString => None
      end
  end.

Definition object (s : string) : option (list (string * jvalue)) :=
  match s with
  | String "{" (String "}" EmptyString) => Some []
  | String "{" s1 => members (String.length s1) s1
  | _ => None
  end.

End Json.

(* ================================================================== *)
(** * Vocabulary of the properties *)
(* ================================================================== *)

Module Spec.
Import Go pcommon plog Exporter.

(** The concatenation of a list of strings. *)
Definition join (l : list string) : string := fold_right append EmptyString l.

(** ** Pruning *)

(** A record is kept by the innermost callback. *)
Definition kept (g : Globals) (lr : LogRecord) : bool := negb (removeRecord g lr).

(** The two callbacks of the outer [RemoveIf] calls, as prunings. *)
Definition prune_scope (g : Globals) (sl : ScopeLogs) : ScopeLogs :=
  {| Scope := Scope sl;
     LogRecords := RemoveIf (fun lr => (lr, removeRecord g lr)) (LogRecords sl) |}.

Definition prune_resource (g : Globals) (rl : ResourceLogs) : ResourceLogs :=
  {| Resource := Resource rl;
     ScopeLogsOf :=
       RemoveIf (fun sl => (prune_scope g sl,
                            Z.of_nat (List.length (LogRecords (prune_scope g sl))) =? 0))
         (ScopeLogsOf rl) |}.

(** No resource group and no scope group of a batch is empty. *)
Definition no_empty_group (ld : Logs) : Prop :=
  Forall (fun rl => ScopeLogsOf rl <> []
                    /\ Forall (fun sl => LogRecords sl <> []) (ScopeLogsOf rl)) ld.

(** The reasons a configuration allows when the package variables were
    [g0] before the construction: the fields of the filter expression, or
    what [g0] held when the expression is empty. *)
Definition allowed_reasons (g0 : Globals) (conf : Config) : list string :=
  match Filter conf with
  | EmptyString => filters g0
  | _ => Split (Filter conf) "|"
  end.

(** ** Field extraction *)

(** The six required attributes in the order the error text lists them. *)
Definition required : list string :=
  [ATTR_EVENT_REASON; ATTR_EVENT_START_TIME; ATTR_EVENT_NAME;
   ATTR_EVENT_UID; ATTR_EVENT_NS; ATTR_EVENT_COUNT].

Definition has (lr : LogRecord) (attr : string) : bool :=
  is_some (Get (Attributes lr) attr).

(** The required attributes a record lacks, in that order. *)
Definition missing (lr : LogRecord) : list string :=
  filter (fun attr => negb (has lr attr)) required.

(** The error text that names the attributes [names]. *)
Definition missing_error (names : list string) : string :=
  "Couldn't find "
  ++ join (map (fun attr => "{" ++ attr ++ "} ") names)
  ++ "attributes in the log".

Definition attribute (lr : LogRecord) (attr : string) : Value :=
  match Get (Attributes lr) attr with
  | Some v => v
  | None => ValueEmpty
  end.

(** The event of a record that has the six attributes. *)
Definition toEvent (lr : LogRecord) : cloudeventdata :=
  {| count := int (Int (attribute lr ATTR_EVENT_COUNT));
     message := AsString (Body lr);
     name := AsString (attribute lr ATTR_EVENT_NAME);
     namespace := AsString (attribute lr ATTR_EVENT_NS);
     reason := AsString (attribute lr ATTR_EVENT_REASON);
     startTime := AsString (attribute lr ATTR_EVENT_START_TIME);
     uid := AsString (attribute lr ATTR_EVENT_UID) |}.

(** What [pushLogs] does for such a record. *)
Definition push_ops (lr : LogRecord) : list producerOp :=
  [Assign (toEvent lr); SendAddr].

(** ** The type header *)

(** A string with all its white space characters removed.  The characters
    of a Go string are the runes a [range] loop yields; the result is the
    string written from those that are not white space. *)
Definition string_of_runes (rs : list rune) : string := join (map EncodeRune rs).

Definition removeWhitespace (s : string) : string :=
  string_of_runes (filter (fun ch => negb (IsSpace ch)) (runes s)).

(** The same as a cut in the bytes of [s]: the byte sequences that decode
    to a white space rune are deleted, the others stay as they are written
    in [s]. *)
Definition cutWhitespace (s : string) : string :=
  join (map snd (filter (fun step => negb (IsSpace (fst step))) (range s))).

(** The cut for text that is plain ASCII: its characters are its bytes. *)
Definition is_ascii (a : ascii) : bool := byteZ a <? 128.


Fixpoint all_ascii (s : string) : bool :=
  match s with
  | EmptyString => true
  | String a s' => is_ascii a && all_ascii s'
  end.

Fixpoint remove_space_bytes (s : string) : string :=
  match s with
  | EmptyString => EmptyString
  | String a s' =>
      if IsSpace (byteZ a) then remove_space_bytes s'
      else String a (remove_space_bytes s')
  end.

(** ** The body *)

(** A backslash before every double quote. *)
Fixpoint escape_quotes (s : string) : string :=
  match s with
  | EmptyString => EmptyString
  | String c s' =>
      if ascii_dec dquote c
      then String backslash (String dquote (escape_quotes s'))
      else String c (escape_quotes s')
  end.

(** Every double quote of [s] follows a backslash; [escaped] tells whether
    the byte before the head of [s] is a backslash. *)
Fixpoint quotes_escaped (escaped : bool) (s : string) : bool :=
  match s with
  | EmptyString => true
  | String c s' =>
      (if ascii_dec dquote c then escaped else true)
      && quotes_escaped (if ascii_dec backslash c then true else false) s'
  end.

(** ** Delivery *)

(** The errors a worker handed to the logger and the requests it performed,
    in order. *)
Definition logged (effects : list effect) : list goerror :=
  flat_map (fun eff => match eff with LogError err => [err] | HttpDo _ => [] end) effects.

Definition requests (effects : list effect) : list Request :=
  flat_map (fun eff => match eff with HttpDo req => [req] | LogError _ => [] end) effects.

Definition is_throttleRetry (err : goerror) : bool :=
  match err with throttleRetry _ _ => true | errorString _ => false end.

(** The status is in the success range. *)
Definition success (res : Response) : Prop := 200 <= StatusCode res <= 299.

(** The response signals throttling. *)
Definition throttled (res : Response) : Prop :=
  StatusCode res = 429 \/ StatusCode res = 503.

(** A step of a [range] loop is the decoding of some non-empty string, with
    the bytes consumed. *)
Definition decoded (step : rune * string) : Prop :=
  exists a0 s1 w,
    DecodeRuneInString (String a0 s1) = (fst step, w)
    /\ snd step = take w (String a0 s1).

End Spec.

(* ================================================================== *)
(** * Sample configurations, batches and responses *)
(* ================================================================== *)

Module Samples.
Import Go pcommon plog Exporter Spec.

Definition no_validation_error : Config -> option string := fun _ => None.

Definition conf_of (filter specversion : string) : Config :=
  {| Endpoint := "http://sink.example/events";
     Filter := filter;
     Ce := {| AppendType := "com.example.k8s";
              Source := "cluster-a";
              SpecVersion := specversion |} |}.

Definition sample_conf : Config := conf_of "Created|Deleted" "1.0".
Definition wildcard_conf : Config := conf_of "*" "1.0".
Definition bar_conf : Config := conf_of "|" "1.0".
Definition no_specversion_conf : Config := conf_of "Created|Deleted" EmptyString.


Definition sample_build : BuildInfo :=
  {| Description := "otelcol-custom"; Version := "0.1.0" |}.

(** The package variables once [sample_conf] is constructed. *)
Definition sample_globals : Globals :=
  {| filters := ["Created"; "Deleted"]; filterAllowAll := false;
     typeVersion := "v1" |}.

Definition sample_exporter : cloudeventTransformExporter :=
  {| config := sample_conf; useragent := "otelcol-custom/0.1.0 (linux/amd64)";
     source := "cluster-a" |}.



Definition event_attributes (reason uid : string) : Map :=
  [(ATTR_EVENT_COUNT, ValueInt 1);
   (ATTR_EVENT_NAME, ValueStr "pod-1");
   (ATTR_EVENT_NS, ValueStr "default");
   (ATTR_EVENT_UID, ValueStr uid);
   (ATTR_EVENT_REASON, ValueStr reason);
   (ATTR_EVENT_START_TIME, ValueStr "2024-01-01T00:00:00Z")].

Definition record_created : LogRecord :=
  {| Body := ValueStr "container created";
     Attributes := event_attributes "Created" "uid-1" |}.
Definition record_scaled : LogRecord :=
  {| Body := ValueStr "scaled up";
     Attributes := event_attributes "Scaled" "uid-2" |}.
Definition record_deleted : LogRecord :=
  {| Body := ValueStr "container deleted";
     Attributes := event_attributes "Deleted" "uid-3" |}.

(** A record with every required attribute but the reason. *)
Definition record_without_reason : LogRecord :=
  {| Body := ValueStr "no reason given";
     Attributes :=
       [(ATTR_EVENT_COUNT, ValueInt 1);
        (ATTR_EVENT_NAME, ValueStr "pod-1");
        (ATTR_EVENT_NS, ValueStr "default");
        (ATTR_EVENT_UID, ValueStr "uid-4");
        (ATTR_EVENT_START_TIME, ValueStr "2024-01-01T00:00:00Z")] |}.

(** A record that lacks the uid and the count. *)
Definition record_without_uid_count : LogRecord :=
  {| Body := ValueStr "incomplete";
     Attributes :=
       [(ATTR_EVENT_NAME, ValueStr "pod-1");
        (ATTR_EVENT_NS, ValueStr "default");
        (ATTR_EVENT_REASON, ValueStr "Deleted");
        (ATTR_EVENT_START_TIME, ValueStr "2024-01-01T00:00:00Z")] |}.

Definition batch_of (records : list LogRecord) : Logs :=
  [{| Resource := [("k8s.cluster.name", ValueStr "a")];
      ScopeLogsOf := [{| Scope := "k8sobjects"; LogRecords := records |}] |}].

Definition batch_without_reason : Logs := batch_of [record_without_reason].
Definition batch_three : Logs := batch_of [record_created; record_scaled; record_deleted].
Definition batch_incomplete : Logs :=
  batch_of [record_created; record_without_uid_count; record_deleted].
Definition batch_two : Logs := batch_of [record_created; record_deleted].

Definition event_created : cloudeventdata := toEvent record_created.
Definition event_deleted : cloudeventdata := toEvent record_deleted.

(** An event whose message ends with a backslash. *)
Definition event_backslash : cloudeventdata :=
  {| count := 1; message := "mounted C:" ++ BS; name := "pod-1";
     namespace := "default"; reason := "Created";
     startTime := "2024-01-01T00:00:00Z"; uid := "uid-5" |}.

(** An event whose message quotes a word. *)
Definition event_quoted : cloudeventdata :=
  {| count := 1; message := "pulled image " ++ DQ ++ "nginx" ++ DQ; name := "pod-1";
     namespace := "default"; reason := "Created";
     startTime := "2024-01-01T00:00:00Z"; uid := "uid-6" |}.

(** An event whose reason holds a space and a tab. *)
Definition event_spaced : cloudeventdata :=
  {| count := 1; message := "restarting"; name := "pod-1";
     namespace := "default";
     reason := "Back Off" ++ String (byte_of_Z 9) "Restart";
     startTime := "2024-01-01T00:00:00Z"; uid := "uid-7" |}.

Definition accepts_any_url : string -> option string := fun _ => None.

Definition response_201 : Response := {| StatusCode := 201; Header := [] |}.
Definition response_503 : Response :=
  {| StatusCode := 503; Header := [(HEADER_RETRY_AFTER, ["5"])] |}.
Definition response_500 : Response :=
  {| StatusCode := 500; Header := [(HEADER_RETRY_AFTER, ["5"])] |}.

Definition answers (res : Response) : Request -> result Response := fun _ => Ok res.

(** The producer runs to its end before any worker is scheduled. *)
Definition producer_first : list Sched.action :=
  [Sched.Producer; Sched.Producer; Sched.Producer; Sched.Producer;
   Sched.Receive 0; Sched.Receive 1; Sched.Export 0; Sched.Export 1].

(** Every event is received and posted before the next one is assigned. *)
Definition one_at_a_time : list Sched.action :=
  [Sched.Producer; Sched.Producer; Sched.Receive 0; Sched.Export 0;
   Sched.Producer; Sched.Producer; Sched.Receive 1; Sched.Export 1].

End Samples.

(* ================================================================== *)
(** * Vocabulary of the further properties *)
(* ================================================================== *)

Module MoreSpec.
Import Go pcommon plog Exporter Spec.

(** The events [pushLogs] assigned to [ce] and the number of its sends. *)
Definition assigned (ops : list producerOp) : list cloudeventdata :=
  flat_map (fun op => match op with Assign v => [v] | SendAddr => [] end) ops.

Definition sends (ops : list producerOp) : nat :=
  List.length (filter (fun op => match op with SendAddr => true | Assign _ => false end) ops).

(** A record has the six required attributes. *)
Definition complete (lr : LogRecord) : Prop := missing lr = [].

(** A record passes the pruning pass under the package variables [g]. *)
Definition passes (g : Globals) (lr : LogRecord) : bool :=
  filterAllowAll g || kept g lr.

(** [strings.Join]. *)
Fixpoint Join (elems : list string) (sep : string) : string :=
  match elems with
  | [] => EmptyString
  | [x] => x
  | x :: rest => x ++ sep ++ Join rest sep
  end.

(** The byte [c] does not occur in [s]. *)
Fixpoint free_of (c : ascii) (s : string) : bool :=
  match s with
  | EmptyString => true
  | String a s' => (if ascii_dec c a then false else true) && free_of c s'
  end.

(** Text that can stand between the quotes of a JSON string as it is: no
    control byte, no double quote, no backslash. *)
Definition plain_byte (c : ascii) : bool :=
  (32 <=? byteZ c) && negb (byteZ c =? 34) && negb (byteZ c =? 92).

Fixpoint plain (s : string) : bool :=
  match s with
  | EmptyString => true
  | String c s' => plain_byte c && plain s'
  end.

(** Text whose only bytes in need of an escape are double quotes. *)
Fixpoint plain_but_quotes (s : string) : bool :=
  match s with
  | EmptyString => true
  | String c s' =>
      (32 <=? byteZ c) && negb (byteZ c =? 92) && plain_but_quotes s'
  end.

(** The inverse of the escaping: a backslash before a double quote is
    dropped. *)
Fixpoint unescape_quotes (s : string) : string :=
  match s with
  | EmptyString => EmptyString
  | String c s1 =>
      match s1 with
      | String d s2 =>
          if ascii_dec backslash c then
            if ascii_dec dquote d then String d (unescape_quotes s2)
            else String c (unescape_quotes s1)
          else String c (unescape_quotes s1)
      | EmptyString => String c EmptyString
      end
  end.

(** A member of the body whose value is a string, a member whose value is
    a number, each followed by [rest]. *)
Definition string_member (key v rest : string) : string :=
  String dquote (key ++ String dquote (String ":" (String dquote (v ++ String dquote rest)))).

Definition number_member (key : string) (z : Z) (rest : string) : string :=
  String dquote (key ++ String dquote (String ":" (Itoa z ++ rest))).

(** The six members a reader is to find in the body of an event. *)
Definition body_members (ce : cloudeventdata) : list (string * Json.jvalue) :=
  [("reason", Json.JString (reason ce));
   ("start_time", Json.JString (startTime ce));
   ("name", Json.JString (name ce));
   ("namespace", Json.JString (namespace ce));
   ("count", Json.JNumber (count ce));
   ("message", Json.JString (escape_quotes (message ce)))].

(** A Unicode scalar value: a code point that is not a surrogate. *)
Definition scalar (r : rune) : Prop :=
  0 <= r < 55296 \/ 57343 < r <= 1114111.

End MoreSpec.

(* ================================================================== *)
(** * Start, shutdown and the life of the channel *)
(* ================================================================== *)

Module Lifecycle.
Import Exporter MoreSpec.

(** The exporter from its construction on: the producer, the channel and
    the workers of [Sched], whether [shutdown] has closed the channel, and
    the workers whose [range] loop has ended. *)
Record state : Type := mkState {
  core : Sched.state;
  closed : bool;
  gone : list nat
}.

(** [newExporter] has made the channel; no worker runs yet; [ops] is what
    a call of [pushLogs] will do. *)
Definition boot (ops : list producerOp) : state :=
  {| core := {| Sched.cell := Sched.zero_ce; Sched.todo := ops; Sched.chan := [];
                Sched.workers := []; Sched.exported := [] |};
     closed := false;
     gone := [] |}.

Inductive event : Type :=
| Start (clientError : option string)   (* [start], with what [ToClient] returns *)
| Shutdown                              (* [shutdown] *)
| Thread (a : Sched.action)             (* a step of the producer or of a worker *)
| Leave (w : nat).                      (* worker [w] finds the channel closed and empty *)

Inductive outcome : Type :=
| Next (st : state)
| Panic (msg : string)
| Blocked.

Definition with_core (st : state) (c : option Sched.state) : outcome :=
  match c with
  | Some c' => Next {| core := c'; closed := closed st; gone := gone st |}
  | None => Blocked
  end.

Definition is_gone (st : state) (w : nat) : bool :=
  existsb (Nat.eqb w) (gone st).

Definition step (ev : event) (st : state) : outcome :=
  match ev with
  | Start (Some _) => Next st          (* [start] returns the error, no worker *)
  | Start None =>
      Next {| core :=
                {| Sched.cell := Sched.cell (core st);
                   Sched.todo := Sched.todo (core st);
                   Sched.chan := Sched.chan (core st);
                   Sched.workers := (Sched.workers (core st) ++ repeat None CHAN_SZ)%list;
                   Sched.exported := Sched.exported (core st) |};
              closed := closed st; gone := gone st |}
  | Shutdown =>
      if closed st then Panic "close of closed channel"
      else Next {| core := core st; closed := true; gone := gone st |}
  | Thread Sched.Producer =>
      match Sched.todo (core st) with
      | SendAddr :: _ =>
          if closed st then Panic "send on closed channel"
          else with_core st (Sched.step Sched.Producer (core st))
      | _ => with_core st (Sched.step Sched.Producer (core st))
      end
  | Thread (Sched.Receive w) =>
      if is_gone st w then Blocked
      else with_core st (Sched.step (Sched.Receive w) (core st))
  | Thread (Sched.Export w) => with_core st (Sched.step (Sched.Export w) (core st))
  | Leave w =>
      match nth_error (Sched.workers (core st)) w, Sched.chan (core st) with
      | Some None, [] =>
          if closed st && negb (is_gone st w)
          then Next {| core := core st; closed := closed st; gone := w :: gone st |}
          else Blocked
      | _, _ => Blocked
      end
  end.

Fixpoint run (evs : list event) (st : state) : outcome :=
  match evs with
  | [] => Next st
  | ev :: evs' =>
      match step ev st with
      | Next st' => run evs' st'
      | stop => stop
      end
  end.

(** The workers that hold a pointer they have not read through yet. *)
Definition holding (ws : list (option Sched.addr)) : nat :=
  List.length (filter (fun w => is_some w) ws).

(** Every worker that was spawned has left its loop. *)
Definition all_gone (st : state) : Prop :=
  forall w, (w < List.length (Sched.workers (core st)))%nat -> In w (gone st).

(** The sends [pushLogs] has completed out of the operations [ops]. *)
Definition sent (ops : list producerOp) (st : state) : nat :=
  sends ops - sends (Sched.todo (core st)).

(** What holds in every state the exporter reaches. *)
Definition invariant (ops : list producerOp) (st : state) : Prop :=
  (List.length (Sched.chan (core st)) <= CHAN_SZ)%nat
  /\ sends ops
     = (sends (Sched.todo (core st)) + List.length (Sched.chan (core st))
        + holding (Sched.workers (core st))
        + List.length (Sched.exported (core st)))%nat
  /\ (gone st <> [] -> closed st = true /\ Sched.chan (core st) = [])
  /\ (forall w, In w (gone st) -> nth_error (Sched.workers (core st)) w = Some None).

(** The schedule that empties the channel after [shutdown]: the workers
    that hold a pointer read through it, worker [w0] takes and reads what
    the channel still holds, and every worker that has not left leaves. *)
Fixpoint holders (i : nat) (ws : list (option Sched.addr)) : list nat :=
  match ws with
  | [] => []
  | Some _ :: ws' => i :: holders (S i) ws'
  | None :: ws' => holders (S i) ws'
  end.

Fixpoint remaining (st : state) (i n : nat) : list nat :=
  match n with
  | O => []
  | S n' => if is_gone st i then remaining st (S i) n' else i :: remaining st (S i) n'
  end.

(** The state [st] with another channel content, other workers, other
    exports and other workers gone. *)
Definition put (st : state) (ch : list Sched.addr) (ws : list (option Sched.addr))
    (ex : list (nat * cloudeventdata)) (gn : list nat) : state :=
  {| core := {| Sched.cell := Sched.cell (core st); Sched.todo := Sched.todo (core st);
                Sched.chan := ch; Sched.workers := ws; Sched.exported := ex |};
     closed := closed st;
     gone := gn |}.

Definition drain (st : state) : list event :=
  (map (fun w => Thread (Sched.Export w)) (holders 0 (Sched.workers (core st)))
   ++ flat_map (fun _ => [Thread (Sched.Receive 0); Thread (Sched.Export 0)])
        (Sched.chan (core st))
   ++ map Leave (remaining st 0 (List.length (Sched.workers (core st)))))%list.

End Lifecycle.

(* ================================================================== *)
(** * Further samples *)
(* ================================================================== *)

Module MoreSamples.
Import Go pcommon plog Exporter Spec MoreSpec Samples.

(** The operations of [pushLogs] on the batch of two complete records. *)
Definition two_ops : list producerOp := fst (pushLogs sample_globals batch_two).

(** A push before the start, the start, the end of the push while worker 0
    is at work, and the shutdown with one pointer queued and one held. *)
Definition busy_life : list Lifecycle.event :=
  [Lifecycle.Thread Sched.Producer; Lifecycle.Thread Sched.Producer;
   Lifecycle.Start None;
   Lifecycle.Thread (Sched.Receive 0);
   Lifecycle.Thread Sched.Producer; Lifecycle.Thread Sched.Producer;
   Lifecycle.Shutdown].

Definition state_after (evs : list Lifecycle.event) : Lifecycle.state :=
  match Lifecycle.run evs (Lifecycle.boot two_ops) with
  | Lifecycle.Next st => st
  | _ => Lifecycle.boot two_ops
  end.

(** The same life followed by the drain of the workers. *)
Definition whole_life : list Lifecycle.event :=
  (busy_life ++ Lifecycle.drain (state_after busy_life))%list.

(** A throttling answer whose Retry-After is the decimal form of [n]. *)
Definition throttled_for (n : Z) : Response :=
  {| StatusCode := 429; Header := [(HEADER_RETRY_AFTER, [Itoa n])] |}.

(** A throttling answer whose Retry-After is a date. *)
Definition throttled_until : Response :=
  {| StatusCode := 503;
     Header := [(HEADER_RETRY_AFTER, ["Wed, 21 Oct 2015 07:28:00 GMT"])] |}.

End MoreSamples.

(* ================================================================== *)
(** * Properties of the pruning pass *)
(* ================================================================== *)

Module FilterFacts.
Import Go pcommon plog Exporter Spec.

Lemma RemoveIf_pure {A : Type} (p : A -> bool) (es : list A) :
  RemoveIf (fun x => (x, p x)) es = filter (fun x => negb (p x)) es.
Proof.
  induction es as [|x es IH]; simpl; [reflexivity|].
  destruct (p x); simpl; now rewrite IH.
Qed.

Lemma length_zero_iff_nil {A : Type} (l : list A) :
  (Z.of_nat (List.length l) =? 0) = true <-> l = [].
Proof.
  destruct l; simpl; split; intro H; try reflexivity; try discriminate.
Qed.

(** Pruning every group with [h] and dropping the groups left empty keeps
    exactly the elements [h] keeps, in order. *)
Lemma RemoveIf_flat_map {G R : Type} (h : G -> G) (empty : G -> bool)
    (content : G -> list R) (gs : list G) :
  (forall x, empty (h x) = true -> content (h x) = []) ->
  flat_map content (RemoveIf (fun x => (h x, empty (h x))) gs)
  = flat_map (fun x => content (h x)) gs.
Proof.
  intro Hempty. induction gs as [|x gs IH]; simpl; [reflexivity|].
  destruct (empty (h x)) eqn:E.
  - rewrite (Hempty x E). simpl. exact IH.
  - simpl. now rewrite IH.
Qed.

Lemma RemoveIf_groups_nonempty {G R : Type} (h : G -> G) (content : G -> list R)
    (gs : list G) :
  Forall (fun x => content x <> [])
    (RemoveIf (fun x => (h x, Z.of_nat (List.length (content (h x))) =? 0)) gs).
Proof.
  induction gs as [|x gs IH]; simpl; [constructor|].
  destruct (Z.of_nat (List.length (content (h x))) =? 0) eqn:E; [exact IH|].
  constructor; [|exact IH].
  intro Hnil. rewrite Hnil in E. discriminate.
Qed.

Lemma RemoveIf_groups_pruned {G : Type} (h : G -> G) (empty : G -> bool)
    (P : G -> Prop) (gs : list G) :
  (forall x, P (h x)) ->
  Forall P (RemoveIf (fun x => (h x, empty (h x))) gs).
Proof.
  intro HP. induction gs as [|x gs IH]; simpl; [constructor|].
  destruct (empty (h x)); [exact IH|]. constructor; [apply HP|exact IH].
Qed.

Lemma filter_flat_map {A B : Type} (p : B -> bool) (f : A -> list B) (l : list A) :
  filter p (flat_map f l) = flat_map (fun x => filter p (f x)) l.
Proof.
  induction l as [|x l IH]; simpl; [reflexivity|].
  now rewrite filter_app, IH.
Qed.

Lemma filterLogs_allow_all (g : Globals) (ld : Logs) :
  filterAllowAll g = true -> filterLogs g ld = ld.
Proof. intro H. unfold filterLogs. now rewrite H. Qed.

(** Without allow-all the records left are those the callback keeps, in
    their original order. *)
Lemma filterLogs_unfold (g : Globals) (ld : Logs) :
  filterAllowAll g = false ->
  filterLogs g ld =
  RemoveIf (fun rl => (prune_resource g rl,
                       Z.of_nat (List.length (ScopeLogsOf (prune_resource g rl))) =? 0)) ld.
Proof. intro H. unfold filterLogs. rewrite H. reflexivity. Qed.

Lemma filterLogs_records (g : Globals) (ld : Logs) :
  filterAllowAll g = false ->
  all_records (filterLogs g ld) = filter (kept g) (all_records ld).
Proof.
  intro H. rewrite (filterLogs_unfold g ld H). unfold all_records.
  rewrite (RemoveIf_flat_map (prune_resource g)
             (fun rl => Z.of_nat (List.length (ScopeLogsOf rl)) =? 0)
             records_of_resource).
  - rewrite filter_flat_map. apply flat_map_ext. intro rl.
    unfold records_of_resource, prune_resource. cbn [ScopeLogsOf].
    rewrite (RemoveIf_flat_map (prune_scope g)
               (fun sl => Z.of_nat (List.length (LogRecords sl)) =? 0)
               records_of_scope).
    + rewrite filter_flat_map. apply flat_map_ext. intro sl.
      unfold records_of_scope, prune_scope. cbn [LogRecords].
      now rewrite RemoveIf_pure.
    + intros sl E. apply length_zero_iff_nil in E. exact E.
  - intros rl E. apply length_zero_iff_nil in E.
    unfold records_of_resource. now rewrite E.
Qed.

(** Without allow-all no group of the result is empty. *)
Lemma filterLogs_no_empty_group (g : Globals) (ld : Logs) :
  filterAllowAll g = false ->
  Forall (fun rl => ScopeLogsOf rl <> []
                    /\ Forall (fun sl => LogRecords sl <> []) (ScopeLogsOf rl))
    (filterLogs g ld).
Proof.
  intro H. rewrite (filterLogs_unfold g ld H).
  apply Forall_and.
  - apply (RemoveIf_groups_nonempty (prune_resource g) ScopeLogsOf).
  - apply (RemoveIf_groups_pruned (prune_resource g)
             (fun rl => Z.of_nat (List.length (ScopeLogsOf rl)) =? 0)).
    intro rl. unfold prune_resource. cbn [ScopeLogsOf].
    apply (RemoveIf_groups_nonempty (prune_scope g) LogRecords).
Qed.

Lemma kept_without_reason (g : Globals) (lr : LogRecord) :
  Get (Attributes lr) ATTR_EVENT_REASON = None -> kept g lr = true.
Proof. intro H. unfold kept, removeRecord. now rewrite H. Qed.

Lemma kept_with_reason (g : Globals) (lr : LogRecord) (reason : Value) :
  Get (Attributes lr) ATTR_EVENT_REASON = Some reason ->
  kept g lr = true <-> In (AsString reason) (filters g).
Proof.
  intro H. unfold kept, removeRecord. rewrite H. rewrite negb_involutive.
  rewrite existsb_exists. split.
  - intros [r [Hin Heq]]. apply String.eqb_eq in Heq. now subst.
  - intro Hin. exists (AsString reason). split; [exact Hin|apply String.eqb_refl].
Qed.

End FilterFacts.

(* ================================================================== *)
(** * Properties of the conversion loops *)
(* ================================================================== *)

Module PushFacts.
Import Go pcommon plog Exporter Spec.

Lemma bind_ret_l {B : Type} (k : Push B) : (ret tt ;;; k) = k.
Proof. unfold bind, ret. now destruct k. Qed.

Lemma bind_assoc {A B C : Type} (m : Push A) (k1 : Push B) (k2 : Push C) :
  ((m ;;; k1) ;;; k2) = (m ;;; (k1 ;;; k2)).
Proof.
  destruct m as [ops [a|e]]; simpl; [|reflexivity].
  destruct k1 as [ops1 [b|e1]]; simpl; [|reflexivity].
  destruct k2 as [ops2 r2]. now rewrite app_assoc.
Qed.

Lemma for_each_app {A : Type} (body : A -> Push unit) (xs ys : list A) :
  for_each body (xs ++ ys)%list = (for_each body xs ;;; for_each body ys).
Proof.
  induction xs as [|x xs IH]; cbn [for_each app].
  - now rewrite bind_ret_l.
  - now rewrite IH, bind_assoc.
Qed.

(** Nested loops visit the concatenation of the inner slices. *)
Lemma for_each_flat_map {A B : Type} (body : B -> Push unit) (inner : A -> list B)
    (xs : list A) :
  for_each (fun x => for_each body (inner x)) xs = for_each body (flat_map inner xs).
Proof.
  induction xs as [|x xs IH]; cbn [for_each flat_map]; [reflexivity|].
  now rewrite for_each_app, IH.
Qed.

Lemma for_each_ext {A : Type} (f f' : A -> Push unit) (xs : list A) :
  (forall x, f x = f' x) -> for_each f xs = for_each f' xs.
Proof.
  intro H. induction xs as [|x xs IH]; cbn [for_each]; [reflexivity|].
  now rewrite H, IH.
Qed.

(** The three nested loops visit the records in the order of [all_records]. *)
Lemma pushLogs_flat (g : Globals) (ld : Logs) :
  pushLogs g ld = for_each pushRecord (all_records (filterLogs g ld)).
Proof.
  unfold pushLogs, all_records.
  rewrite <- for_each_flat_map. apply for_each_ext. intro rl.
  unfold records_of_resource. rewrite <- for_each_flat_map. reflexivity.
Qed.

Ltac split_gets lr :=
  unfold pushRecord, missing, push_ops, toEvent, attribute, has, required;
  cbn [FETCH_ATTR filter];
  destruct (Get (Attributes lr) ATTR_EVENT_COUNT);
  destruct (Get (Attributes lr) ATTR_EVENT_NAME);
  destruct (Get (Attributes lr) ATTR_EVENT_NS);
  destruct (Get (Attributes lr) ATTR_EVENT_UID);
  destruct (Get (Attributes lr) ATTR_EVENT_REASON);
  destruct (Get (Attributes lr) ATTR_EVENT_START_TIME);
  cbn [is_some negb].

Lemma pushRecord_complete (lr : LogRecord) :
  missing lr = [] -> pushRecord lr = (push_ops lr, Ok tt).
Proof.
  split_gets lr; intro H; try discriminate H. reflexivity.
Qed.

Lemma pushRecord_missing (lr : LogRecord) :
  missing lr <> [] -> pushRecord lr = ([], Err (missing_error (missing lr))).
Proof.
  split_gets lr; intro H; try (exfalso; apply H; reflexivity); reflexivity.
Qed.

(** The loop stops at the first record that lacks an attribute. *)
Lemma for_each_first_missing (pre post : list LogRecord) (lr : LogRecord) :
  Forall (fun r => missing r = []) pre ->
  missing lr <> [] ->
  for_each pushRecord (pre ++ lr :: post)%list
  = (flat_map push_ops pre, Err (missing_error (missing lr))).
Proof.
  intros Hpre Hlr. induction Hpre as [|r pre Hr Hpre IH]; simpl.
  - now rewrite (pushRecord_missing lr Hlr).
  - rewrite (pushRecord_complete _ Hr), IH. reflexivity.
Qed.

Lemma for_each_all_complete (recs : list LogRecord) :
  Forall (fun r => missing r = []) recs ->
  for_each pushRecord recs = (flat_map push_ops recs, Ok tt).
Proof.
  intro H. induction H as [|r recs Hr H IH]; simpl; [reflexivity|].
  rewrite (pushRecord_complete _ Hr), IH. reflexivity.
Qed.

(** A list with an incomplete record splits at its first one. *)
Lemma first_missing (recs : list LogRecord) :
  (exists lr, In lr recs /\ missing lr <> []) ->
  exists pre lr post,
    recs = (pre ++ lr :: post)%list
    /\ Forall (fun r => missing r = []) pre /\ missing lr <> [].
Proof.
  induction recs as [|r recs IH]; intros [lr [Hin Hm]]; [destruct Hin|].
  destruct (missing r) eqn:E.
  - destruct Hin as [->|Hin]; [congruence|].
    destruct IH as [pre [lr' [post [-> [Hpre Hlr']]]]]; [now exists lr|].
    exists (r :: pre), lr', post. repeat split; auto.
  - exists [], r, recs. repeat split; auto. congruence.
Qed.

End PushFacts.

(* ================================================================== *)
(** * Properties of the construction *)
(* ================================================================== *)

Module ConstructionFacts.
Import Go pcommon plog Exporter Spec.

Lemma split_from_not_nil (sep : string) (s : string) :
  forall skip, split_from sep skip s <> [].
Proof.
  induction s as [|c s IH]; intros skip; cbn [split_from]; [discriminate|].
  destruct skip as [|k]; [|apply IH].
  destruct (prefix sep (String c s)); [discriminate|].
  destruct (split_from sep 0 s); discriminate.
Qed.

(** [strings.Split] never returns an empty slice. *)
Lemma Split_not_nil (s sep : string) : Split s sep <> [].
Proof. apply split_from_not_nil. Qed.

Lemma split_from_bar (c : ascii) (s : string) :
  split_from "|" 0 (String c s) =
  if ascii_dec "|" c then EmptyString :: split_from "|" 0 s
  else match split_from "|" 0 s with
       | f :: fs => String c f :: fs
       | [] => [String c EmptyString]
       end.
Proof.
  cbn [split_from prefix String.length Nat.pred].
  destruct (ascii_dec "|" c); [now destruct s|reflexivity].
Qed.

(** A single field is the whole string. *)
Lemma Split_bar_singleton (s f : string) : Split s "|" = [f] -> s = f.
Proof.
  unfold Split. revert f. induction s as [|c s IH]; intros f.
  - now intros [= <-].
  - rewrite split_from_bar. destruct (ascii_dec "|" c) as [_|_].
    + intros [= _ H]. now apply split_from_not_nil in H.
    + destruct (split_from "|" 0 s) as [|f' fs] eqn:E;
        [now apply split_from_not_nil in E|].
      intros [= <- ->]. f_equal. now apply IH.
Qed.

Lemma len_String (c : ascii) (s : string) : (0 <? len (String c s)) = true.
Proof. unfold len. simpl String.length. apply Z.ltb_lt. lia. Qed.

(** The local [err] of [newExporter] is never set: the slice of fields is
    never empty. *)
Lemma newExporter_body_err (g : Globals) (conf : Config) :
  snd (newExporter_body g conf) = None.
Proof.
  unfold newExporter_body.
  destruct (0 <? len (Filter conf)); [|reflexivity].
  destruct (Z.of_nat (List.length (Split (Filter conf) "|")) =? 0) eqn:E.
  - apply FilterFacts.length_zero_iff_nil in E. now apply Split_not_nil in E.
  - now destruct (_ && _).
Qed.

(** The type-version tag after the body of [newExporter]. *)
Lemma newExporter_body_typeVersion (g : Globals) (conf : Config) :
  typeVersion (fst (newExporter_body g conf)) =
  match SpecVersion (Ce conf) with
  | String b0 _ => "v" ++ string_of_byte b0
  | EmptyString => typeVersion g
  end.
Proof.
  unfold newExporter_body.
  destruct (0 <? len (Filter conf)).
  - destruct (_ =? 0); [|destruct (_ && _)]; simpl;
      now destruct (SpecVersion (Ce conf)).
  - now destruct (SpecVersion (Ce conf)).
Qed.

(** The wildcard expression switches allow-all on. *)
Lemma newExporter_body_wildcard (g : Globals) (conf : Config) :
  Filter conf = "*" -> filterAllowAll (fst (newExporter_body g conf)) = true.
Proof. intro H. unfold newExporter_body. rewrite H. reflexivity. Qed.

(** Any other expression leaves allow-all as it was and sets the allowed
    reasons. *)
Lemma newExporter_body_filters (g : Globals) (conf : Config) :
  Filter conf <> "*" ->
  filterAllowAll (fst (newExporter_body g conf)) = filterAllowAll g
  /\ filters (fst (newExporter_body g conf)) = allowed_reasons g conf.
Proof.
  intro H. unfold newExporter_body, allowed_reasons.
  destruct (Filter conf) as [|c s] eqn:EF.
  - simpl. now destruct (SpecVersion (Ce conf)).
  - rewrite len_String.
    destruct (Z.of_nat (List.length (Split (String c s) "|")) =? 0) eqn:E0;
      [simpl; now destruct (SpecVersion (Ce conf))|].
    destruct (Z.of_nat (List.length (Split (String c s) "|")) =? 1) eqn:E1;
      [|simpl; now destruct (SpecVersion (Ce conf))].
    destruct (hd EmptyString (Split (String c s) "|") =? "*")%string eqn:Eh;
      [|simpl; now destruct (SpecVersion (Ce conf))].
    exfalso. apply H. apply Z.eqb_eq in E1.
    destruct (Split (String c s) "|") as [|f [|f' fs]] eqn:ES;
      simpl List.length in E1; try lia.
    simpl in Eh. apply String.eqb_eq in Eh. subst f.
    now apply Split_bar_singleton in ES.
Qed.

Section WithEnvironment.
Variable Validate : Config -> option string.
Variables GOOS GOARCH : string.

Lemma newExporter_globals (g0 g : Globals) (conf : Config) (set : BuildInfo)
    (e : cloudeventTransformExporter) :
  newExporter Validate GOOS GOARCH g0 conf set = (g, Ok e) ->
  g = fst (newExporter_body g0 conf) /\ config e = conf.
Proof.
  unfold newExporter. destruct (Validate conf); [discriminate|].
  destruct (newExporter_body g0 conf) as [g' err]. simpl.
  intros [= <- <-]. split; reflexivity.
Qed.

(** [newExporter] fails exactly when the validation does, with its error. *)
Lemma newExporter_result (g0 : Globals) (conf : Config) (set : BuildInfo) :
  match Validate conf with
  | Some err => newExporter Validate GOOS GOARCH g0 conf set = (g0, Err err)
  | None => exists e, newExporter Validate GOOS GOARCH g0 conf set
                      = (fst (newExporter_body g0 conf), Ok e)
  end.
Proof.
  unfold newExporter. destruct (Validate conf); [reflexivity|].
  destruct (newExporter_body g0 conf) as [g' err]. simpl. eauto.
Qed.

End WithEnvironment.

End ConstructionFacts.

(* ================================================================== *)
(** * Properties of the UTF-8 steps of a range loop *)
(* ================================================================== *)

Module Utf8Facts.
Import Go Spec.

Lemma byte_of_Z_byteZ (a : ascii) : byte_of_Z (byteZ a) = a.
Proof. unfold byte_of_Z, byteZ. rewrite N2Z.id. apply ascii_N_embedding. Qed.

Lemma byteZ_range (a : ascii) : 0 <= byteZ a < 256.
Proof. unfold byteZ. pose proof (N_ascii_bounded a). lia. Qed.

Ltac b2p H :=
  rewrite ?andb_true_iff, ?andb_false_iff, ?orb_true_iff, ?orb_false_iff,
    ?negb_true_iff, ?negb_false_iff, ?Z.leb_le, ?Z.leb_gt, ?Z.ltb_lt,
    ?Z.ltb_ge, ?Z.eqb_eq, ?Z.eqb_neq in H.



(** Decides every test of the goal from the bounds in the context. *)
Ltac break_goal :=
  repeat (match goal with
          | |- context [if ?c then _ else _] =>
              let E := fresh "E" in destruct c eqn:E; b2p E; try (exfalso; lia)
          end).




Lemma range_steps_decoded (n : nat) :
  forall s, Forall decoded (range_steps n s).
Proof.
  induction n as [|n IH]; intro s; cbn [range_steps]; [constructor|].
  destruct s as [|a0 s1]; [constructor|].
  destruct (DecodeRuneInString (String a0 s1)) as [r w] eqn:Hd.
  constructor; [|apply IH].
  exists a0, s1, w. split; [exact Hd|reflexivity].
Qed.

Lemma range_decoded (s : string) : Forall decoded (range s).
Proof. apply range_steps_decoded. Qed.

Lemma take_drop (w : nat) : forall s, take w s ++ drop w s = s.
Proof.
  induction w as [|w IH]; intros [|c s]; simpl; try reflexivity.
  now rewrite IH.
Qed.

Lemma drop_length (w : nat) :
  forall s, (String.length (drop w s) <= String.length s)%nat.
Proof.
  induction w as [|w IH]; intros [|c s]; simpl; try lia.
  specialize (IH s). lia.
Qed.

(** The decoder consumes at least one byte of a non-empty string. *)
Lemma decode_width (a0 : ascii) (s1 : string) :
  (1 <= snd (DecodeRuneInString (String a0 s1)))%nat.
Proof.
  unfold DecodeRuneInString.
  repeat match goal with
         | |- context [if ?c then _ else _] => destruct c
         | |- context [match ?s with EmptyString => _ | String _ _ => _ end] =>
             destruct s
         end; simpl; lia.
Qed.

(** The steps of a range loop cut the string into consecutive pieces. *)
Lemma range_steps_join (n : nat) :
  forall s, (String.length s <= n)%nat -> join (map snd (range_steps n s)) = s.
Proof.
  induction n as [|n IH]; intros [|a0 s1] Hlen; try reflexivity.
  - simpl in Hlen. lia.
  - cbn [range_steps].
    pose proof (decode_width a0 s1) as Hw.
    destruct (DecodeRuneInString (String a0 s1)) as [r w].
    cbn [map join fold_right snd] in *.
    change (fold_right append EmptyString
              (map snd (range_steps n (drop w (String a0 s1)))))
      with (join (map snd (range_steps n (drop w (String a0 s1))))).
    rewrite IH; [apply take_drop|].
    destruct w as [|w]; [lia|]. cbn [drop].
    pose proof (drop_length w s1). simpl in Hlen. lia.
Qed.

Lemma range_join (s : string) : join (map snd (range s)) = s.
Proof. apply range_steps_join. lia. Qed.

(** A byte below 0x80 is a step of its own. *)
Lemma range_steps_ascii (n : nat) (a : ascii) (s : string) :
  is_ascii a = true ->
  range_steps (S n) (String a s) = (byteZ a, String a EmptyString) :: range_steps n s.
Proof.
  unfold is_ascii. intro H. cbn [range_steps DecodeRuneInString]. now rewrite H.
Qed.

Lemma string_of_byte_ascii (a : ascii) :
  is_ascii a = true -> string_of_byte a = String a EmptyString.
Proof.
  unfold is_ascii, string_of_byte, EncodeRune. intro H.
  pose proof (byteZ_range a). b2p H. break_goal. now rewrite byte_of_Z_byteZ.
Qed.



Lemma EncodeRune_dot : EncodeRune 46 = ".".
Proof. reflexivity. Qed.

Lemma append_assoc (s t u : string) : (s ++ t) ++ u = s ++ (t ++ u).
Proof. induction s as [|c s IH]; simpl; [reflexivity|]. now rewrite IH. Qed.

Lemma append_nil_r (s : string) : s ++ EmptyString = s.
Proof. induction s as [|c s IH]; simpl; [reflexivity|]. now rewrite IH. Qed.

(** The loop of [configureCeType] appends the encodings of the runes that
    are not white space. *)
Lemma write_loop (rs : list rune) :
  forall acc,
    fold_left (fun ret ch => if negb (IsSpace ch) then Exporter.WriteRune ret ch else ret)
      rs acc
    = acc ++ string_of_runes (filter (fun ch => negb (IsSpace ch)) rs).
Proof.
  induction rs as [|r rs IH]; intro acc; cbn [fold_left filter].
  - simpl. now rewrite append_nil_r.
  - rewrite IH. destruct (negb (IsSpace r)); [|reflexivity].
    unfold Exporter.WriteRune, string_of_runes. cbn [map join fold_right].
    now rewrite append_assoc.
Qed.



(** On plain ASCII the characters are the bytes. *)
Lemma cutWhitespace_ascii (s : string) :
  all_ascii s = true -> cutWhitespace s = remove_space_bytes s.
Proof.
  unfold cutWhitespace, range.
  induction s as [|a s IH]; [reflexivity|].
  cbn [all_ascii]. intro H. apply andb_prop in H as [Ha Hs].
  cbn [String.length]. rewrite range_steps_ascii by exact Ha.
  cbn [filter fst remove_space_bytes].
  destruct (IsSpace (byteZ a)); cbn [negb map join fold_right snd].
  - now apply IH.
  - simpl. f_equal. now apply IH.
Qed.

Lemma ValidString_ascii (s : string) : all_ascii s = true -> ValidString s = true.
Proof.
  unfold ValidString, range.
  induction s as [|a s IH]; [reflexivity|].
  cbn [all_ascii]. intro H. apply andb_prop in H as [Ha Hs].
  cbn [String.length]. rewrite range_steps_ascii by exact Ha.
  cbn [forallb]. rewrite (IH Hs), andb_true_r.
  unfold ill_formed. cbn [fst snd]. unfold is_ascii in Ha.
  apply negb_true_iff, andb_false_iff. left. apply Z.eqb_neq.
  pose proof (byteZ_range a). unfold RuneError. lia.
Qed.

End Utf8Facts.

(* ================================================================== *)
(** * Properties of the quote escaping *)
(* ================================================================== *)

Module EscapeFacts.
Import Go Exporter Spec.

Lemma replace_quote_cons (c : ascii) (s : string) :
  replace_from DQ (BS ++ DQ) 0 (String c s) =
  if ascii_dec dquote c
  then String backslash (String dquote (replace_from DQ (BS ++ DQ) 0 s))
  else String c (replace_from DQ (BS ++ DQ) 0 s).
Proof.
  unfold DQ, BS. cbn [replace_from prefix String.length Nat.pred append].
  destruct (ascii_dec dquote c); [now destruct s|reflexivity].
Qed.

(** The replacement of the worker puts a backslash before every quote. *)
Lemma ReplaceAll_quotes (s : string) :
  ReplaceAll s DQ (BS ++ DQ) = escape_quotes s.
Proof.
  unfold ReplaceAll. induction s as [|c s IH]; [reflexivity|].
  rewrite replace_quote_cons. cbn [escape_quotes].
  destruct (ascii_dec dquote c); now rewrite IH.
Qed.

Lemma escape_quotes_escaped (s : string) :
  forall escaped, quotes_escaped escaped (escape_quotes s) = true.
Proof.
  induction s as [|c s IH]; intro escaped; [reflexivity|].
  cbn [escape_quotes]. destruct (ascii_dec dquote c) as [Hq|Hq].
  - cbn [quotes_escaped].
    destruct (ascii_dec dquote backslash) as [Hx|_]; [discriminate Hx|].
    destruct (ascii_dec backslash backslash) as [_|Hx]; [|now elim Hx].
    destruct (ascii_dec dquote dquote) as [_|Hx]; [|now elim Hx].
    cbn [andb]. apply IH.
  - cbn [quotes_escaped].
    destruct (ascii_dec dquote c) as [Hx|_]; [contradiction|].
    cbn [andb]. apply IH.
Qed.

(** In the message the worker writes, every double quote follows a
    backslash. *)
Lemma message_quotes_escaped (ce : cloudeventdata) :
  quotes_escaped false (ReplaceAll (message ce) DQ (BS ++ DQ)) = true.
Proof. rewrite ReplaceAll_quotes. apply escape_quotes_escaped. Qed.

End EscapeFacts.

(* ================================================================== *)
(** * The filter and the extraction on whole batches *)
(* ================================================================== *)

Module BatchTheorems.
Import Go pcommon plog Exporter Spec Samples.
Import FilterFacts PushFacts ConstructionFacts.

Lemma missing_reason (lr : LogRecord) :
  Get (Attributes lr) ATTR_EVENT_REASON = None -> missing lr <> [].
Proof.
  intros H Hnil.
  assert (Hin : In ATTR_EVENT_REASON (missing lr)).
  { unfold missing. apply filter_In. split; [now left|].
    unfold has. now rewrite H. }
  rewrite Hnil in Hin. destruct Hin.
Qed.

(** C1, as the code has it: a record without the reason attribute is not
    removed by the pruning pass when the filter is not in allow-all mode;
    it stays in the batch, reaches the field extraction, and [pushLogs]
    then returns the error that names missing attributes. *)
Theorem reasonless_record_reaches_extraction (g : Globals) (ld : Logs) (lr : LogRecord) :
  filterAllowAll g = false ->
  In lr (all_records ld) ->
  Get (Attributes lr) ATTR_EVENT_REASON = None ->
  In lr (all_records (filterLogs g ld))
  /\ exists ops names,
       names <> [] /\ pushLogs g ld = (ops, Err (missing_error names)).
Proof.
  intros Hg Hin Hreason.
  assert (Hkept : In lr (all_records (filterLogs g ld))).
  { rewrite (filterLogs_records g ld Hg). apply filter_In. split; [exact Hin|].
    now apply kept_without_reason. }
  split; [exact Hkept|].
  destruct (first_missing (all_records (filterLogs g ld))) as
    [pre [lr' [post [Hsplit [Hpre Hlr']]]]].
  { exists lr. split; [exact Hkept|now apply missing_reason]. }
  exists (flat_map push_ops pre), (missing lr'). split; [exact Hlr'|].
  rewrite pushLogs_flat, Hsplit. now apply for_each_first_missing.
Qed.

Lemma reasonless_record_reaches_extraction_witness :
  In record_without_reason (all_records (filterLogs sample_globals batch_without_reason))
  /\ exists ops names,
       names <> []
       /\ pushLogs sample_globals batch_without_reason = (ops, Err (missing_error names)).
Proof.
  apply (reasonless_record_reaches_extraction
           sample_globals batch_without_reason record_without_reason).
  - reflexivity.
  - simpl. left. reflexivity.
  - reflexivity.
Defined.

(** C1, as the claim has it, fails: with the allowed reasons Created and
    Deleted and allow-all off, the one record of the batch has no reason
    attribute, and it is still in the batch after the pruning pass and
    makes the extraction fail. *)
Lemma reasonless_record_not_dropped :
  filterAllowAll sample_globals = false
  /\ In record_without_reason (all_records batch_without_reason)
  /\ Get (Attributes record_without_reason) ATTR_EVENT_REASON = None
  /\ In record_without_reason
       (all_records (filterLogs sample_globals batch_without_reason))
  /\ filterLogs sample_globals batch_without_reason = batch_without_reason
  /\ pushLogs sample_globals batch_without_reason
     = ([], Err "Couldn't find {k8s.event.reason} attributes in the log").
Proof.
  repeat split; try reflexivity; simpl; left; reflexivity.
Qed.

(** C2: when a record left by the pruning pass lacks one of the six
    required attributes, [pushLogs] returns one error; its text names
    exactly the attributes the first such record lacks, in the order
    reason, start_time, name, uid, namespace, count; and the only events
    built and sent are those of the records before it. *)
Theorem pushLogs_missing_attributes (g : Globals) (ld : Logs) :
  (exists lr, In lr (all_records (filterLogs g ld)) /\ missing lr <> []) ->
  exists pre lr post,
    all_records (filterLogs g ld) = (pre ++ lr :: post)%list
    /\ Forall (fun r => missing r = []) pre
    /\ missing lr <> []
    /\ pushLogs g ld = (flat_map push_ops pre, Err (missing_error (missing lr))).
Proof.
  intro H. destruct (first_missing _ H) as [pre [lr [post [Hsplit [Hpre Hlr]]]]].
  exists pre, lr, post. repeat split; auto.
  rewrite pushLogs_flat, Hsplit. now apply for_each_first_missing.
Qed.

Lemma pushLogs_missing_attributes_witness :
  exists pre lr post,
    all_records (filterLogs sample_globals batch_incomplete) = (pre ++ lr :: post)%list
    /\ Forall (fun r => missing r = []) pre
    /\ missing lr <> []
    /\ pushLogs sample_globals batch_incomplete
       = (flat_map push_ops pre, Err (missing_error (missing lr))).
Proof.
  apply (pushLogs_missing_attributes sample_globals batch_incomplete).
  exists record_without_uid_count. split.
  - simpl. right. left. reflexivity.
  - discriminate.
Defined.

Section AfterConstruction.
Variable Validate : Config -> option string.
Variables GOOS GOARCH : string.

(** C3: after a construction that found allow-all off, a filter
    expression other than the wildcard leaves allow-all off and sets the
    allowed reasons; a record that has a reason attribute is then in the
    pruned batch if and only if the text of its reason is one of the
    allowed reasons, nothing is added, and no resource group and no scope
    group of the pruned batch is empty.  With the wildcard expression the
    batch is returned as it came. *)
Theorem ReasonFilter_spec (g0 g : Globals) (conf : Config) (set : BuildInfo)
    (e : cloudeventTransformExporter) (ld : Logs) :
  newExporter Validate GOOS GOARCH g0 conf set = (g, Ok e) ->
  filterAllowAll g0 = false ->
  (Filter conf = "*" -> filterLogs g ld = ld)
  /\ (Filter conf <> "*" ->
      filters g = allowed_reasons g0 conf
      /\ (forall lr reason,
            In lr (all_records ld) ->
            Get (Attributes lr) ATTR_EVENT_REASON = Some reason ->
            (In lr (all_records (filterLogs g ld))
             <-> In (AsString reason) (allowed_reasons g0 conf)))
      /\ (forall lr, In lr (all_records (filterLogs g ld)) -> In lr (all_records ld))
      /\ no_empty_group (filterLogs g ld)).
Proof.
  intros Hnew Hg0. apply newExporter_globals in Hnew as [-> _]. split.
  - intro Hw. apply filterLogs_allow_all. now apply newExporter_body_wildcard.
  - intro Hw. destruct (newExporter_body_filters g0 conf Hw) as [Hoff Hfs].
    rewrite Hg0 in Hoff. split; [exact Hfs|]. split; [|split].
    + intros lr reason Hin Hreason. rewrite (filterLogs_records _ ld Hoff).
      rewrite filter_In, (kept_with_reason _ lr reason Hreason), Hfs. tauto.
    + intros lr. rewrite (filterLogs_records _ ld Hoff), filter_In. tauto.
    + now apply filterLogs_no_empty_group.
Qed.

End AfterConstruction.

Lemma ReasonFilter_spec_witness :
  (Filter sample_conf = "*" -> filterLogs sample_globals batch_three = batch_three)
  /\ (Filter sample_conf <> "*" ->
      filters sample_globals = allowed_reasons initGlobals sample_conf
      /\ (forall lr reason,
            In lr (all_records batch_three) ->
            Get (Attributes lr) ATTR_EVENT_REASON = Some reason ->
            (In lr (all_records (filterLogs sample_globals batch_three))
             <-> In (AsString reason) (allowed_reasons initGlobals sample_conf)))
      /\ (forall lr, In lr (all_records (filterLogs sample_globals batch_three))
                     -> In lr (all_records batch_three))
      /\ no_empty_group (filterLogs sample_globals batch_three)).
Proof.
  apply (ReasonFilter_spec no_validation_error "linux" "amd64"
           initGlobals sample_globals sample_conf sample_build
           {| config := sample_conf;
              useragent := "otelcol-custom/0.1.0 (linux/amd64)";
              source := "cluster-a" |} batch_three).
  - reflexivity.
  - reflexivity.
Defined.

End BatchTheorems.

(* ================================================================== *)
(** * The Ce-Type header *)
(* ================================================================== *)

Module HeaderTheorems.
Import Go pcommon plog Exporter Spec Samples.
Import ConstructionFacts Utf8Facts.

Lemma header_CeType (g : Globals) (e : cloudeventTransformExporter) (ce : cloudeventdata) :
  header_value (ReqHeader (newRequest g e ce)) HEADER_CE_TYPE
  = Some (configureCeType g (AppendType (Ce (config e))) (reason ce)).
Proof. reflexivity. Qed.

(** What the builder of [configureCeType] holds at the end. *)
Lemma configureCeType_written (g : Globals) (pretext reason : string) :
  configureCeType g pretext reason
  = pretext ++ "." ++ typeVersion g ++ "." ++ removeWhitespace reason.
Proof.
  unfold configureCeType, removeWhitespace. rewrite write_loop.
  unfold WriteString, WriteRune. rewrite EncodeRune_dot.
  cbn [append]. now rewrite !append_assoc.
Qed.

Section AfterConstruction.
Variable Validate : Config -> option string.
Variables GOOS GOARCH : string.


(** C10: with an empty spec-version the construction succeeds as soon as
    the validation does, the type-version tag stays empty when it was
    empty before, and the Ce-Type header of every request built afterwards
    is the prefix, two dots and the reason with its white space characters
    removed. *)
Theorem CeType_header_without_specversion (g0 : Globals) (conf : Config)
    (set : BuildInfo) :
  Validate conf = None ->
  SpecVersion (Ce conf) = EmptyString ->
  typeVersion g0 = EmptyString ->
  exists g e,
    newExporter Validate GOOS GOARCH g0 conf set = (g, Ok e)
    /\ typeVersion g = EmptyString
    /\ forall ce,
         header_value (ReqHeader (newRequest g e ce)) HEADER_CE_TYPE
         = Some (AppendType (Ce conf) ++ ".." ++ removeWhitespace (reason ce)).
Proof.
  intros Hval Hspec Htv.
  pose proof (newExporter_result Validate GOOS GOARCH g0 conf set) as Hres.
  rewrite Hval in Hres. destruct Hres as [e Hnew].
  exists (fst (newExporter_body g0 conf)), e.
  assert (Htag : typeVersion (fst (newExporter_body g0 conf)) = EmptyString).
  { now rewrite newExporter_body_typeVersion, Hspec. }
  split; [exact Hnew|]. split; [exact Htag|].
  intros ce.
  apply newExporter_globals in Hnew as [_ Hconf].
  now rewrite header_CeType, configureCeType_written, Hconf, Htag.
Qed.

End AfterConstruction.



Lemma CeType_header_without_specversion_witness :
  exists g e,
    newExporter no_validation_error "linux" "amd64" initGlobals
      no_specversion_conf sample_build = (g, Ok e)
    /\ typeVersion g = EmptyString
    /\ forall ce,
         header_value (ReqHeader (newRequest g e ce)) HEADER_CE_TYPE
         = Some ("com.example.k8s" ++ ".." ++ removeWhitespace (reason ce)).
Proof.
  apply (CeType_header_without_specversion no_validation_error "linux" "amd64"
           initGlobals no_specversion_conf sample_build).
  - reflexivity.
  - reflexivity.
  - reflexivity.
Defined.

(** The header of the sample event with a space and a tab in its reason. *)
Example CeType_header_spaced :
  header_value (ReqHeader (newRequest sample_globals sample_exporter event_spaced))
    HEADER_CE_TYPE
  = Some "com.example.k8s.v1.BackOffRestart".
Proof. vm_compute. reflexivity. Qed.

End HeaderTheorems.

(* ================================================================== *)
(** * The delivery policy *)
(* ================================================================== *)

Module DeliveryTheorems.
Import Go pcommon plog Exporter Spec Samples.

Lemma success_test (res : Response) :
  (200 <=? StatusCode res) && (StatusCode res <=? 299) = true <-> success res.
Proof. unfold success. rewrite andb_true_iff, !Z.leb_le. tauto. Qed.

Lemma success_dec (res : Response) : success res \/ ~ success res.
Proof. unfold success. lia. Qed.

Lemma int64_small (z : Z) : MinInt64 <= z <= MaxInt64 -> int64 z = z.
Proof.
  unfold int64, MinInt64, MaxInt64. intro H.
  rewrite Z.mod_small; lia.
Qed.

(** An absent or empty Retry-After value does not parse. *)
Lemma Atoi_empty : Atoi EmptyString = None.
Proof. reflexivity. Qed.

(** The delay of the retry branch, case by case. *)
Lemma retryDelay_cases (res : Response) :
  (forall seconds,
      throttled res ->
      Atoi (HeaderGet (Header res) HEADER_RETRY_AFTER) = Some seconds ->
      retryDelay res = int64 (seconds * Second))
  /\ (~ throttled res \/ Atoi (HeaderGet (Header res) HEADER_RETRY_AFTER) = None ->
      retryDelay res = 0).
Proof.
  unfold retryDelay, throttled, StatusTooManyRequests, StatusServiceUnavailable.
  split.
  - intros seconds Hthr Hparse.
    replace ((StatusCode res =? 429) || (StatusCode res =? 503)) with true
      by (symmetry; apply orb_true_iff; rewrite !Z.eqb_eq; exact Hthr).
    destruct (HeaderGet (Header res) HEADER_RETRY_AFTER =? EmptyString)%string eqn:E.
    + apply String.eqb_eq in E. rewrite E, Atoi_empty in Hparse. discriminate.
    + cbn [andb negb]. now rewrite Hparse.
  - intros [Hthr|Hparse].
    + replace ((StatusCode res =? 429) || (StatusCode res =? 503)) with false;
        [reflexivity|].
      symmetry. apply orb_false_iff. rewrite !Z.eqb_neq. tauto.
    + rewrite Hparse. now destruct (_ && _).
Qed.

Section Worker.
Variable NewRequestError : string -> option string.
Variable Do : Request -> result Response.

(** C7: when the request of an event is built and answered, the worker
    performs that one request and nothing else; it hands an error to the
    logger if and only if the status is outside 200..299; inside the range
    nothing is logged and no retry signal is built; outside, with retries
    disabled, exactly one plain error is logged. *)
Theorem delivery_status_policy (g : Globals) (e : cloudeventTransformExporter)
    (ce : cloudeventdata) (res : Response) :
  NewRequestError (Endpoint (config e)) = None ->
  Do (newRequest g e ce) = Ok res ->
  let effects := exportOne NewRequestError Do g e ce in
  requests effects = [newRequest g e ce]
  /\ (logged effects <> [] <-> ~ success res)
  /\ (success res -> effects = [HttpDo (newRequest g e ce)])
  /\ (~ success res -> logged effects = [formattedErr e res])
  /\ forallb (fun err => negb (is_throttleRetry err)) (logged effects) = true.
Proof.
  intros Hreq Hdo effects. subst effects.
  unfold exportOne, exportOneWith, RETRY_ENABLED. rewrite Hreq, Hdo.
  destruct ((200 <=? StatusCode res) && (StatusCode res <=? 299)) eqn:E.
  - apply success_test in E. cbn. repeat split; try tauto; try discriminate.
  - assert (Hfail : ~ success res).
    { intro H. apply success_test in H. congruence. }
    cbn. repeat split; try tauto; try discriminate.
Qed.

(** C8: with the retry flag enabled, a response outside 200..299 makes the
    worker build one retryable signal around the delivery error and hand it
    to the logger, after the one request it performed.  The delay of the
    signal is the Retry-After value times one second in the arithmetic of
    [time.Duration] when the status is 429 or 503 and the value parses as
    an integer, which is that many seconds whenever they fit a duration;
    it is zero in every other case. *)
Theorem retry_signal (g : Globals) (e : cloudeventTransformExporter)
    (ce : cloudeventdata) (res : Response) :
  NewRequestError (Endpoint (config e)) = None ->
  Do (newRequest g e ce) = Ok res ->
  ~ success res ->
  exists delay,
    exportOneWith NewRequestError Do true g e ce
    = [HttpDo (newRequest g e ce);
       LogError (throttleRetry (formattedErr e res) delay)]
    /\ (forall seconds,
          throttled res ->
          Atoi (HeaderGet (Header res) HEADER_RETRY_AFTER) = Some seconds ->
          delay = int64 (seconds * Second)
          /\ (- 9223372036 <= seconds <= 9223372036 -> delay = seconds * Second))
    /\ (~ throttled res \/ Atoi (HeaderGet (Header res) HEADER_RETRY_AFTER) = None ->
        delay = 0).
Proof.
  intros Hreq Hdo Hfail. exists (retryDelay res).
  destruct (retryDelay_cases res) as [Hparsed Hzero].
  split; [|split].
  - unfold exportOneWith. rewrite Hreq, Hdo.
    destruct ((200 <=? StatusCode res) && (StatusCode res <=? 299)) eqn:E;
      [|reflexivity].
    apply success_test in E. contradiction.
  - intros seconds Hthr Hparse. rewrite (Hparsed seconds Hthr Hparse).
    split; [reflexivity|]. intro Hfit. apply int64_small.
    unfold MinInt64, MaxInt64, Second. lia.
  - exact Hzero.
Qed.

End Worker.

Lemma delivery_status_policy_witness :
  let effects :=
    exportOne accepts_any_url (answers response_503)
      sample_globals sample_exporter event_created in
  requests effects = [newRequest sample_globals sample_exporter event_created]
  /\ (logged effects <> [] <-> ~ success response_503)
  /\ (success response_503 ->
      effects = [HttpDo (newRequest sample_globals sample_exporter event_created)])
  /\ (~ success response_503 ->
      logged effects = [formattedErr sample_exporter response_503])
  /\ forallb (fun err => negb (is_throttleRetry err)) (logged effects) = true.
Proof.
  apply (delivery_status_policy accepts_any_url (answers response_503)
           sample_globals sample_exporter event_created response_503).
  - reflexivity.
  - reflexivity.
Defined.

Lemma retry_signal_witness :
  exists delay,
    exportOneWith accepts_any_url (answers response_503) true
      sample_globals sample_exporter event_created
    = [HttpDo (newRequest sample_globals sample_exporter event_created);
       LogError (throttleRetry (formattedErr sample_exporter response_503) delay)]
    /\ (forall seconds,
          throttled response_503 ->
          Atoi (HeaderGet (Header response_503) HEADER_RETRY_AFTER) = Some seconds ->
          delay = int64 (seconds * Second)
          /\ (- 9223372036 <= seconds <= 9223372036 -> delay = seconds * Second))
    /\ (~ throttled response_503
        \/ Atoi (HeaderGet (Header response_503) HEADER_RETRY_AFTER) = None ->
        delay = 0).
Proof.
  apply (retry_signal accepts_any_url (answers response_503)
           sample_globals sample_exporter event_created response_503).
  - reflexivity.
  - reflexivity.
  - unfold success. simpl. lia.
Defined.

End DeliveryTheorems.

(* ================================================================== *)
(** * Where the code departs from its own intent *)
(* ================================================================== *)

Module Departures.
Import Go pcommon plog Exporter Spec Samples.
Import ConstructionFacts.

(** C4: every send of [pushLogs] carries the address of the one variable
    [ce], which the next iteration overwrites.  For the batch of a Created
    and a Deleted record the producer assigns two different events; when it
    runs to its end before the workers are scheduled, both workers read the
    Deleted event through the pointers they received: the Created event is
    posted by nobody and the Deleted event by two workers.  The same holds
    for any two events assigned and sent in a row. *)
Theorem shared_ce_overwritten :
  pushLogs sample_globals batch_two
  = ([Assign event_created; SendAddr; Assign event_deleted; SendAddr], Ok tt)
  /\ event_created <> event_deleted
  /\ (exists final,
       Sched.run producer_first (Sched.init (fst (pushLogs sample_globals batch_two)))
       = Some final
       /\ Sched.quiescent final = true
       /\ Sched.exported final = [(0%nat, event_deleted); (1%nat, event_deleted)])
  /\ (forall v1 v2 : cloudeventdata,
       option_map Sched.exported
         (Sched.run producer_first
            (Sched.init [Assign v1; SendAddr; Assign v2; SendAddr]))
       = Some [(0%nat, v2); (1%nat, v2)]).
Proof.
  split; [vm_compute; reflexivity|]. split; [discriminate|]. split.
  - eexists. split; [vm_compute; reflexivity|]. split; reflexivity.
  - intros v1 v2. reflexivity.
Qed.

(** Under a schedule that posts every event before the next assignment the
    same batch is delivered as intended. *)
Example one_at_a_time_delivers :
  option_map Sched.exported
    (Sched.run one_at_a_time (Sched.init (fst (pushLogs sample_globals batch_two))))
  = Some [(0%nat, event_created); (1%nat, event_deleted)].
Proof. vm_compute. reflexivity. Qed.

(** C5: only the double quotes of the message are escaped.  The body built
    for an event whose message ends with a backslash is not a JSON object:
    the backslash escapes the quote that should close the message.  The
    body of an event whose message only holds quotes reads as the six
    members, in order. *)
Theorem json_body_backslash_unreadable :
  Json.object (json_body event_backslash) = None
  /\ Json.object (json_body event_quoted)
     = Some [("reason", Json.JString "Created");
             ("start_time", Json.JString "2024-01-01T00:00:00Z");
             ("name", Json.JString "pod-1");
             ("namespace", Json.JString "default");
             ("count", Json.JNumber 1);
             ("message",
              Json.JString ("pulled image " ++ BS ++ DQ ++ "nginx" ++ BS ++ DQ))].
Proof. split; vm_compute; reflexivity. Qed.

(** C9: [newExporter] returns an error only when the validation does, and
    then that error: no filter expression makes the construction fail.
    The expression made of one separator is accepted, with two empty
    allowed reasons. *)
Theorem newExporter_accepts_any_filter :
  (forall (Validate : Config -> option string) (GOOS GOARCH : string)
          (g0 : Globals) (conf : Config) (set : BuildInfo),
      match Validate conf with
      | Some err => newExporter Validate GOOS GOARCH g0 conf set = (g0, Err err)
      | None => exists g e, newExporter Validate GOOS GOARCH g0 conf set = (g, Ok e)
      end)
  /\ (forall (g0 : Globals) (conf : Config), snd (newExporter_body g0 conf) = None)
  /\ newExporter no_validation_error "linux" "amd64" initGlobals bar_conf sample_build
     = ({| filters := [EmptyString; EmptyString]; filterAllowAll := false;
           typeVersion := "v1" |},
        Ok {| config := bar_conf;
              useragent := "otelcol-custom/0.1.0 (linux/amd64)";
              source := "cluster-a" |}).
Proof.
  split; [|split].
  - intros Validate GOOS GOARCH g0 conf set.
    pose proof (newExporter_result Validate GOOS GOARCH g0 conf set) as H.
    destruct (Validate conf); [exact H|].
    destruct H as [e H]. eauto.
  - apply newExporter_body_err.
  - vm_compute. reflexivity.
Qed.

End Departures.

(* ================================================================== *)
(** * Further properties of the pruning pass and of the conversion *)
(* ================================================================== *)

Module MoreBatch.
Import Go pcommon plog Exporter Spec MoreSpec Samples.
Import FilterFacts PushFacts ConstructionFacts.

Lemma RemoveIf_idem {A : Type} (h : A -> A) (empty : A -> bool) (l : list A) :
  (forall x, h (h x) = h x) ->
  RemoveIf (fun x => (h x, empty (h x))) (RemoveIf (fun x => (h x, empty (h x))) l)
  = RemoveIf (fun x => (h x, empty (h x))) l.
Proof.
  intro Hh. induction l as [|x l IH]; [reflexivity|].
  cbn [RemoveIf]. destruct (empty (h x)) eqn:E; [exact IH|].
  cbn [RemoveIf]. rewrite Hh, E, IH. reflexivity.
Qed.

Lemma prune_scope_idem (g : Globals) (sl : ScopeLogs) :
  prune_scope g (prune_scope g sl) = prune_scope g sl.
Proof.
  unfold prune_scope. cbn [Scope LogRecords]. f_equal.
  apply (RemoveIf_idem (fun lr => lr) (removeRecord g)). reflexivity.
Qed.

Lemma prune_resource_idem (g : Globals) (rl : ResourceLogs) :
  prune_resource g (prune_resource g rl) = prune_resource g rl.
Proof.
  unfold prune_resource. cbn [Resource ScopeLogsOf]. f_equal.
  apply (RemoveIf_idem (prune_scope g)
           (fun sl => Z.of_nat (List.length (LogRecords sl)) =? 0)).
  apply prune_scope_idem.
Qed.

(** X3: pruning a batch that was already pruned under the same package
    variables changes nothing. *)
Theorem filterLogs_idempotent (g : Globals) (ld : Logs) :
  filterLogs g (filterLogs g ld) = filterLogs g ld.
Proof.
  destruct (filterAllowAll g) eqn:E.
  - now rewrite !(filterLogs_allow_all g _ E).
  - rewrite (filterLogs_unfold g ld E), (filterLogs_unfold g _ E).
    apply (RemoveIf_idem (prune_resource g)
             (fun rl => Z.of_nat (List.length (ScopeLogsOf rl)) =? 0)).
    apply prune_resource_idem.
Qed.

(** X4: over the three levels of nesting, the pruning pass keeps the
    records that pass in their original order and number; in allow-all
    mode these are all the records. *)
Theorem filterLogs_keeps_order (g : Globals) (ld : Logs) :
  all_records (filterLogs g ld) = filter (passes g) (all_records ld).
Proof.
  unfold passes. destruct (filterAllowAll g) eqn:E.
  - rewrite (filterLogs_allow_all g ld E). cbn [orb].
    induction (all_records ld) as [|r rs IH]; [reflexivity|].
    cbn [filter]. now rewrite <- IH.
  - now rewrite (filterLogs_records g ld E).
Qed.

Lemma complete_dec (recs : list LogRecord) :
  Forall complete recs \/ exists lr, In lr recs /\ missing lr <> [].
Proof.
  induction recs as [|r recs [IH|[lr [Hin Hm]]]].
  - left. constructor.
  - destruct (missing r) eqn:E.
    + left. now constructor.
    + right. exists r. split; [now left|congruence].
  - right. exists lr. split; [now right|exact Hm].
Qed.

(** What [pushLogs] has done when it returns: the events of a run of
    complete records at the head of the pruned batch. *)
Lemma pushLogs_prefix (g : Globals) (ld : Logs) :
  exists pre post,
    all_records (filterLogs g ld) = (pre ++ post)%list
    /\ Forall complete pre
    /\ fst (pushLogs g ld) = flat_map push_ops pre
    /\ (post = [] -> snd (pushLogs g ld) = Ok tt)
    /\ (forall lr rest, post = lr :: rest ->
          missing lr <> []
          /\ snd (pushLogs g ld) = Err (missing_error (missing lr))).
Proof.
  rewrite pushLogs_flat.
  destruct (complete_dec (all_records (filterLogs g ld))) as [Hall|Hex].
  - exists (all_records (filterLogs g ld)), [].
    rewrite (for_each_all_complete _ Hall), app_nil_r.
    repeat split; auto; discriminate.
  - destruct (first_missing _ Hex) as [pre [lr [post [Hsplit [Hpre Hlr]]]]].
    exists pre, (lr :: post). rewrite Hsplit.
    rewrite (for_each_first_missing pre post lr Hpre Hlr).
    repeat split; auto; try discriminate.
    + now injection H as <- _.
    + now injection H as <- _.
Qed.

(** X1: [pushLogs] returns nil exactly when every record left by the
    pruning pass has the six required attributes, and it has then assigned
    and sent the event of each of them, in the order of the batch. *)
Theorem pushLogs_succeeds_iff (g : Globals) (ld : Logs) :
  (snd (pushLogs g ld) = Ok tt
   <-> Forall complete (all_records (filterLogs g ld)))
  /\ (Forall complete (all_records (filterLogs g ld)) ->
      pushLogs g ld = (flat_map push_ops (all_records (filterLogs g ld)), Ok tt)).
Proof.
  split; [split|].
  - intro Hok. destruct (pushLogs_prefix g ld) as [pre [post [Hs [Hpre [_ [_ Herr]]]]]].
    destruct post as [|lr rest].
    + now rewrite Hs, app_nil_r.
    + destruct (Herr lr rest eq_refl) as [_ He]. rewrite He in Hok. discriminate.
  - intro Hall. rewrite pushLogs_flat, (for_each_all_complete _ Hall). reflexivity.
  - intro Hall. rewrite pushLogs_flat. now apply for_each_all_complete.
Qed.

Lemma pushLogs_succeeds_iff_witness :
  (snd (pushLogs sample_globals batch_three) = Ok tt
   <-> Forall complete (all_records (filterLogs sample_globals batch_three)))
  /\ (Forall complete (all_records (filterLogs sample_globals batch_three)) ->
      pushLogs sample_globals batch_three
      = (flat_map push_ops (all_records (filterLogs sample_globals batch_three)), Ok tt)).
Proof. apply (pushLogs_succeeds_iff sample_globals batch_three). Defined.

Lemma complete_has (lr : LogRecord) (attr : string) :
  complete lr -> In attr required -> has lr attr = true.
Proof.
  unfold complete, missing. intros Hnil Hin.
  destruct (has lr attr) eqn:E; [reflexivity|].
  assert (Hf : In attr (filter (fun a => negb (has lr a)) required)).
  { apply filter_In. split; [exact Hin|]. now rewrite E. }
  rewrite Hnil in Hf. destruct Hf.
Qed.

Lemma assigned_push_ops (pre : list LogRecord) :
  assigned (flat_map push_ops pre) = map toEvent pre.
Proof.
  induction pre as [|r pre IH]; [reflexivity|].
  cbn [flat_map push_ops]. unfold assigned in *. cbn. now rewrite IH.
Qed.

(** X2: when allow-all is off, every event [pushLogs] assigns and sends,
    whether it ends with nil or with an error, has a reason that is one of
    the allowed reasons. *)
Theorem pushLogs_sends_allowed_reasons (g : Globals) (ld : Logs) (v : cloudeventdata) :
  filterAllowAll g = false ->
  In v (assigned (fst (pushLogs g ld))) ->
  In (reason v) (filters g).
Proof.
  intros Hoff Hin.
  destruct (pushLogs_prefix g ld) as [pre [post [Hs [Hpre [Hops _]]]]].
  rewrite Hops, assigned_push_ops in Hin.
  apply in_map_iff in Hin as [lr [<- Hlr]].
  assert (Hkept : In lr (all_records (filterLogs g ld))).
  { rewrite Hs. apply in_or_app. now left. }
  rewrite (filterLogs_records g ld Hoff) in Hkept.
  apply filter_In in Hkept as [_ Hkept].
  rewrite Forall_forall in Hpre.
  pose proof (complete_has lr ATTR_EVENT_REASON (Hpre lr Hlr)) as Hhas.
  unfold has in Hhas.
  destruct (Get (Attributes lr) ATTR_EVENT_REASON) as [x|] eqn:Hget.
  - cbn [toEvent reason]. unfold attribute. rewrite Hget.
    now apply (kept_with_reason g lr x Hget).
  - discriminate Hhas. now left.
Qed.

Lemma pushLogs_sends_allowed_reasons_witness :
  In (reason event_deleted) (filters sample_globals).
Proof.
  apply (pushLogs_sends_allowed_reasons sample_globals batch_three event_deleted).
  - reflexivity.
  - vm_compute. right. left. reflexivity.
Defined.

End MoreBatch.

(* ================================================================== *)
(** * Further properties of the construction *)
(* ================================================================== *)

Module MoreConstruction.
Import Go pcommon plog Exporter Spec MoreSpec Samples.
Import FilterFacts PushFacts ConstructionFacts Utf8Facts.

(** A non-empty expression always replaces the allowed reasons by its
    fields. *)
Lemma newExporter_body_split (g : Globals) (conf : Config) :
  Filter conf <> EmptyString ->
  filters (fst (newExporter_body g conf)) = Split (Filter conf) "|".
Proof.
  intro H. unfold newExporter_body.
  destruct (Filter conf) as [|c s] eqn:EF; [congruence|].
  rewrite len_String.
  destruct (_ =? 0); [reflexivity|]. now destruct (_ && _).
Qed.

(** The body of [newExporter] never switches allow-all off. *)
Lemma newExporter_body_keeps_allow_all (g : Globals) (conf : Config) :
  filterAllowAll g = true -> filterAllowAll (fst (newExporter_body g conf)) = true.
Proof.
  intro H. unfold newExporter_body.
  destruct (0 <? len (Filter conf)).
  - destruct (_ =? 0); [|destruct (_ && _)]; cbn [fst filterAllowAll];
      try reflexivity; now destruct (SpecVersion (Ce conf)).
  - cbn [fst]. now destruct (SpecVersion (Ce conf)).
Qed.

Lemma Join_cons (x : string) (fs : list string) :
  fs <> [] -> Join (x :: fs) "|" = x ++ "|" ++ Join fs "|".
Proof. destruct fs; [congruence|reflexivity]. Qed.

Lemma Join_String (c : ascii) (f : string) (fs : list string) :
  Join (String c f :: fs) "|" = String c (Join (f :: fs) "|").
Proof. destruct fs; reflexivity. Qed.

(** Joining the fields with the separator gives the expression back. *)
Lemma Join_Split_bar (s : string) : Join (Split s "|") "|" = s.
Proof.
  unfold Split. induction s as [|c s IH]; [reflexivity|].
  rewrite split_from_bar. destruct (ascii_dec "|" c) as [<-|Hc].
  - rewrite Join_cons by apply split_from_not_nil. now rewrite IH.
  - destruct (split_from "|" 0 s) as [|f fs] eqn:E.
    + now apply split_from_not_nil in E.
    + now rewrite Join_String, IH.
Qed.

(** No field holds the separator. *)
Lemma Split_bar_free (s : string) : Forall (fun f => free_of "|" f = true) (Split s "|").
Proof.
  unfold Split. induction s as [|c s IH]; [repeat constructor|].
  rewrite split_from_bar. destruct (ascii_dec "|" c) as [<-|Hc].
  - constructor; [reflexivity|exact IH].
  - destruct (split_from "|" 0 s) as [|f fs] eqn:E.
    + now apply split_from_not_nil in E.
    + inversion IH as [|? ? Hf Hfs]; subst. constructor; [|exact Hfs].
      cbn [free_of]. destruct (ascii_dec "|" c); [contradiction|exact Hf].
Qed.

Section AfterConstruction.
Variable Validate : Config -> option string.
Variables GOOS GOARCH : string.

(** X5: an exporter constructed with an empty filter expression, when no
    reason was allowed and allow-all was off before (the state the package
    starts in), never sends an event: the pruning pass removes every
    record that has a reason attribute, and the first record left, which
    has none, makes [pushLogs] fail before any send. *)
Theorem empty_filter_sends_nothing (g0 g : Globals) (conf : Config) (set : BuildInfo)
    (e : cloudeventTransformExporter) (ld : Logs) :
  newExporter Validate GOOS GOARCH g0 conf set = (g, Ok e) ->
  filters g0 = [] ->
  filterAllowAll g0 = false ->
  Filter conf = EmptyString ->
  fst (pushLogs g ld) = []
  /\ forall lr, In lr (all_records (filterLogs g ld)) ->
                Get (Attributes lr) ATTR_EVENT_REASON = None.
Proof.
  intros Hnew Hfs Hoff Hempty.
  apply newExporter_globals in Hnew as [-> _].
  assert (Hne : Filter conf <> "*") by (rewrite Hempty; discriminate).
  destruct (newExporter_body_filters g0 conf Hne) as [Hoff' Hfs'].
  unfold allowed_reasons in Hfs'. rewrite Hempty, Hfs in Hfs'. rewrite Hoff in Hoff'.
  set (g := fst (newExporter_body g0 conf)) in *.
  assert (Hnone : forall lr, In lr (all_records (filterLogs g ld)) ->
                             Get (Attributes lr) ATTR_EVENT_REASON = None).
  { intros lr Hin. rewrite (filterLogs_records g ld Hoff') in Hin.
    apply filter_In in Hin as [_ Hk].
    destruct (Get (Attributes lr) ATTR_EVENT_REASON) as [x|] eqn:Hget; [|reflexivity].
    apply (kept_with_reason g lr x Hget) in Hk. rewrite Hfs' in Hk. destruct Hk. }
  split; [|exact Hnone].
  destruct (MoreBatch.pushLogs_prefix g ld) as [pre [post [Hs [Hpre [Hops _]]]]].
  rewrite Hops. destruct pre as [|r pre]; [reflexivity|]. exfalso.
  inversion Hpre as [|? ? Hr _]; subst.
  pose proof (MoreBatch.complete_has r ATTR_EVENT_REASON Hr (or_introl eq_refl)) as Hhas.
  unfold has in Hhas. rewrite (Hnone r) in Hhas; [discriminate|].
  rewrite Hs. now left.
Qed.

(** X6: allow-all, once switched on by the construction of one exporter,
    is never switched off again: after any later construction, whatever its
    filter expression and its outcome, the pruning pass returns every batch
    as it came. *)
Theorem allow_all_is_sticky (g0 g : Globals) (conf : Config) (set : BuildInfo)
    (r : result cloudeventTransformExporter) (ld : Logs) :
  newExporter Validate GOOS GOARCH g0 conf set = (g, r) ->
  filterAllowAll g0 = true ->
  filterAllowAll g = true /\ filterLogs g ld = ld.
Proof.
  intros Hnew Hon.
  assert (Hg : filterAllowAll g = true).
  { unfold newExporter in Hnew. destruct (Validate conf).
    - now injection Hnew as <- _.
    - destruct (newExporter_body g0 conf) as [g' err] eqn:Eb.
      injection Hnew as <- _.
      change g' with (fst (g', err)). rewrite <- Eb.
      now apply newExporter_body_keeps_allow_all. }
  split; [exact Hg|now apply filterLogs_allow_all].
Qed.

(** X7: the type-version tag and the allowed reasons belong to the package,
    not to an exporter.  After a second construction whose spec-version
    starts with the byte [c] and whose filter expression is not empty, the
    Ce-Type header of the requests of the first exporter carries the tag of
    the second construction, the letter v followed by what [string(c)]
    gives ([c] itself when it is below 0x80), and the allowed reasons are
    the fields of the second expression. *)
Theorem later_construction_overrides (g0 g1 g2 : Globals) (conf1 conf2 : Config)
    (set1 set2 : BuildInfo) (e1 e2 : cloudeventTransformExporter)
    (c : ascii) (rest : string) (ce : cloudeventdata) :
  newExporter Validate GOOS GOARCH g0 conf1 set1 = (g1, Ok e1) ->
  newExporter Validate GOOS GOARCH g1 conf2 set2 = (g2, Ok e2) ->
  SpecVersion (Ce conf2) = String c rest ->
  Filter conf2 <> EmptyString ->
  header_value (ReqHeader (newRequest g2 e1 ce)) HEADER_CE_TYPE
  = Some (AppendType (Ce conf1) ++ "." ++ "v" ++ string_of_byte c ++ "."
          ++ removeWhitespace (reason ce))
  /\ (is_ascii c = true -> string_of_byte c = String c EmptyString)
  /\ filters g2 = Split (Filter conf2) "|".
Proof.
  intros H1 H2 Hspec Hf.
  apply newExporter_globals in H1 as [_ Hconf1].
  apply newExporter_globals in H2 as [-> _].
  split; [|split; [apply string_of_byte_ascii|now apply newExporter_body_split]].
  rewrite HeaderTheorems.header_CeType, HeaderTheorems.configureCeType_written, Hconf1.
  rewrite newExporter_body_typeVersion, Hspec.
  reflexivity.
Qed.

(** X8: after a construction with a non-empty filter expression, joining
    the allowed reasons with the separator gives the expression back, and
    no allowed reason holds the separator. *)
Theorem filters_round_trip (g0 g : Globals) (conf : Config) (set : BuildInfo)
    (e : cloudeventTransformExporter) :
  newExporter Validate GOOS GOARCH g0 conf set = (g, Ok e) ->
  Filter conf <> EmptyString ->
  Join (filters g) "|" = Filter conf
  /\ Forall (fun f => free_of "|" f = true) (filters g).
Proof.
  intros Hnew Hf. apply newExporter_globals in Hnew as [-> _].
  rewrite (newExporter_body_split g0 conf Hf).
  split; [apply Join_Split_bar|apply Split_bar_free].
Qed.

End AfterConstruction.

Lemma empty_filter_sends_nothing_witness :
  fst (pushLogs (fst (newExporter_body initGlobals (conf_of EmptyString "1.0"))) batch_three) = []
  /\ forall lr,
       In lr (all_records
                (filterLogs (fst (newExporter_body initGlobals (conf_of EmptyString "1.0")))
                   batch_three)) ->
       Get (Attributes lr) ATTR_EVENT_REASON = None.
Proof.
  apply (empty_filter_sends_nothing no_validation_error "linux" "amd64"
           initGlobals _ (conf_of EmptyString "1.0") sample_build
           {| config := conf_of EmptyString "1.0";
              useragent := "otelcol-custom/0.1.0 (linux/amd64)";
              source := "cluster-a" |} batch_three).
  - reflexivity.
  - reflexivity.
  - reflexivity.
  - reflexivity.
Defined.

Lemma allow_all_is_sticky_witness :
  filterAllowAll (fst (newExporter_body
                         (fst (newExporter_body initGlobals wildcard_conf)) sample_conf)) = true
  /\ filterLogs (fst (newExporter_body
                        (fst (newExporter_body initGlobals wildcard_conf)) sample_conf))
       batch_three = batch_three.
Proof.
  apply (allow_all_is_sticky no_validation_error "linux" "amd64"
           (fst (newExporter_body initGlobals wildcard_conf)) _ sample_conf sample_build
           (Ok sample_exporter) batch_three).
  - reflexivity.
  - reflexivity.
Defined.

Lemma later_construction_overrides_witness :
  header_value
    (ReqHeader (newRequest
                  (fst (newExporter_body sample_globals (conf_of "Scaled" "2.0")))
                  sample_exporter event_created)) HEADER_CE_TYPE
  = Some ("com.example.k8s" ++ "." ++ "v" ++ string_of_byte "2"%char ++ "."
          ++ removeWhitespace (reason event_created))
  /\ (is_ascii "2"%char = true -> string_of_byte "2"%char = "2")
  /\ filters (fst (newExporter_body sample_globals (conf_of "Scaled" "2.0")))
     = Split "Scaled" "|".
Proof.
  apply (later_construction_overrides no_validation_error "linux" "amd64"
           initGlobals sample_globals _ sample_conf (conf_of "Scaled" "2.0")
           sample_build sample_build sample_exporter
           {| config := conf_of "Scaled" "2.0";
              useragent := "otelcol-custom/0.1.0 (linux/amd64)";
              source := "cluster-a" |}
           "2"%char ".0" event_created).
  - reflexivity.
  - reflexivity.
  - reflexivity.
  - discriminate.
Defined.

Lemma filters_round_trip_witness :
  Join (filters sample_globals) "|" = Filter sample_conf
  /\ Forall (fun f => free_of "|" f = true) (filters sample_globals).
Proof.
  apply (filters_round_trip no_validation_error "linux" "amd64"
           initGlobals sample_globals sample_conf sample_build sample_exporter).
  - reflexivity.
  - discriminate.
Defined.

End MoreConstruction.

(* ================================================================== *)
(** * Further properties of the worker loop *)
(* ================================================================== *)

Module MoreDelivery.
Import Go pcommon plog Exporter Spec MoreSpec Samples.

Lemma requests_app (xs ys : list effect) :
  requests (xs ++ ys)%list = (requests xs ++ requests ys)%list.
Proof. unfold requests. apply flat_map_app. Qed.

Lemma logged_app (xs ys : list effect) :
  logged (xs ++ ys)%list = (logged xs ++ logged ys)%list.
Proof. unfold logged. apply flat_map_app. Qed.

Section Worker.
Variable NewRequestError : string -> option string.
Variable Do : Request -> result Response.

Lemma exportOneWith_requests (retry : bool) (g : Globals)
    (e : cloudeventTransformExporter) (ce : cloudeventdata) :
  NewRequestError (Endpoint (config e)) = None ->
  requests (exportOneWith NewRequestError Do retry g e ce) = [newRequest g e ce].
Proof.
  intro H. unfold exportOneWith. rewrite H.
  destruct (Do (newRequest g e ce)) as [res|err]; [|reflexivity].
  destruct (_ && _); [reflexivity|]. now destruct retry.
Qed.

(** X9: with an endpoint [http.NewRequest] accepts, a worker performs
    exactly one request per event it receives, in the order it receives
    them, whatever the answers are and whether the retry flag is set or
    not: no event is posted twice and none is skipped. *)
Theorem one_request_per_event (retry : bool) (g : Globals)
    (e : cloudeventTransformExporter) (received : list cloudeventdata) :
  NewRequestError (Endpoint (config e)) = None ->
  requests (flat_map (exportOneWith NewRequestError Do retry g e) received)
  = map (newRequest g e) received.
Proof.
  intro H. induction received as [|ce received IH]; [reflexivity|].
  cbn [flat_map map]. rewrite requests_app, IH, (exportOneWith_requests retry g e ce H).
  reflexivity.
Qed.

(** X10: an endpoint [http.NewRequest] rejects is found neither by the
    construction nor by the start; the worker then performs no request at
    all and hands the same error to the logger once for every event it
    receives. *)
Theorem rejected_endpoint_drops_every_event (retry : bool) (g : Globals)
    (e : cloudeventTransformExporter) (received : list cloudeventdata) (err : string) :
  NewRequestError (Endpoint (config e)) = Some err ->
  requests (flat_map (exportOneWith NewRequestError Do retry g e) received) = []
  /\ logged (flat_map (exportOneWith NewRequestError Do retry g e) received)
     = map (fun _ => errorString err) received.
Proof.
  intro H.
  assert (Hone : forall ce, exportOneWith NewRequestError Do retry g e ce
                            = [LogError (errorString err)]).
  { intro ce. unfold exportOneWith. now rewrite H. }
  induction received as [|ce received [IHr IHl]]; [split; reflexivity|].
  cbn [flat_map map]. rewrite requests_app, logged_app, IHr, IHl, Hone.
  split; reflexivity.
Qed.

(** A transport error is final for its event whether the retry flag
    is set or not: after the one request, the plain error is handed to the
    logger once and no retry signal is built, even when retries are
    enabled. *)
Theorem transport_error_is_terminal (retry : bool) (g : Globals)
    (e : cloudeventTransformExporter) (ce : cloudeventdata) (err : string) :
  NewRequestError (Endpoint (config e)) = None ->
  Do (newRequest g e ce) = Err err ->
  exportOneWith NewRequestError Do retry g e ce
  = [HttpDo (newRequest g e ce); LogError (errorString err)].
Proof.
  intros Hreq Hdo. unfold exportOneWith. now rewrite Hreq, Hdo.
Qed.

Lemma exportOne_logged (g : Globals) (e : cloudeventTransformExporter)
    (ce : cloudeventdata) :
  (List.length (logged (exportOne NewRequestError Do g e ce)) <= 1)%nat
  /\ forallb (fun err => negb (is_throttleRetry err))
       (logged (exportOne NewRequestError Do g e ce)) = true.
Proof.
  unfold exportOne, exportOneWith, RETRY_ENABLED.
  destruct (NewRequestError (Endpoint (config e))); [split; [simpl; lia|reflexivity]|].
  destruct (Do (newRequest g e ce)) as [res|err]; [|split; [simpl; lia|reflexivity]].
  destruct (_ && _); split; simpl; try lia; reflexivity.
Qed.

(** X12: as the exporter is built (retries disabled), the worker loop
    hands at most one error to the logger per event it receives, and none
    of them is a retry signal, whatever the endpoint, the transport and the
    answers do. *)
Theorem default_loop_never_signals_retry (g : Globals)
    (e : cloudeventTransformExporter) (received : list cloudeventdata) :
  (List.length (logged (exportMessage NewRequestError Do g e received))
   <= List.length received)%nat
  /\ forallb (fun err => negb (is_throttleRetry err))
       (logged (exportMessage NewRequestError Do g e received)) = true.
Proof.
  unfold exportMessage.
  induction received as [|ce received [IHn IHt]]; [split; [simpl; lia|reflexivity]|].
  cbn [flat_map]. rewrite logged_app.
  destruct (exportOne_logged g e ce) as [Hn Ht].
  split.
  - rewrite length_app. simpl List.length. lia.
  - rewrite forallb_app, Ht, IHt. reflexivity.
Qed.

End Worker.

Lemma one_request_per_event_witness :
  requests (flat_map (exportOneWith accepts_any_url (answers response_503) true
                        sample_globals sample_exporter)
              [event_created; event_deleted])
  = map (newRequest sample_globals sample_exporter) [event_created; event_deleted].
Proof.
  apply (one_request_per_event accepts_any_url (answers response_503) true
           sample_globals sample_exporter [event_created; event_deleted]).
  reflexivity.
Defined.

Lemma rejected_endpoint_drops_every_event_witness :
  requests (flat_map (exportOneWith (fun _ => Some "missing protocol scheme")
                        (answers response_201) false sample_globals sample_exporter)
              [event_created; event_deleted]) = []
  /\ logged (flat_map (exportOneWith (fun _ => Some "missing protocol scheme")
                         (answers response_201) false sample_globals sample_exporter)
               [event_created; event_deleted])
     = map (fun _ => errorString "missing protocol scheme") [event_created; event_deleted].
Proof.
  apply (rejected_endpoint_drops_every_event (fun _ => Some "missing protocol scheme")
           (answers response_201) false sample_globals sample_exporter
           [event_created; event_deleted] "missing protocol scheme").
  reflexivity.
Defined.

Lemma transport_error_is_terminal_witness :
  exportOneWith accepts_any_url (fun _ => Err "connection refused") true
    sample_globals sample_exporter event_created
  = [HttpDo (newRequest sample_globals sample_exporter event_created);
     LogError (errorString "connection refused")].
Proof.
  apply (transport_error_is_terminal accepts_any_url (fun _ => Err "connection refused")
           true sample_globals sample_exporter event_created "connection refused").
  - reflexivity.
  - reflexivity.
Defined.

End MoreDelivery.

(* ================================================================== *)
(** * Properties of the life of the channel *)
(* ================================================================== *)

Module LifecycleFacts.
Import Exporter MoreSpec Lifecycle.

Lemma holding_app (a b : list (option Sched.addr)) :
  holding (a ++ b)%list = (holding a + holding b)%nat.
Proof. unfold holding. now rewrite filter_app, length_app. Qed.

Lemma holding_repeat_None (n : nat) : holding (repeat None n) = 0%nat.
Proof. induction n as [|n IH]; [reflexivity|exact IH]. Qed.

Lemma length_set_nth {A : Type} (w : nat) (y : A) :
  forall ws, List.length (Sched.set_nth w y ws) = List.length ws.
Proof.
  induction w as [|w IH]; intros [|x ws]; simpl; try reflexivity.
  now rewrite IH.
Qed.

Lemma nth_error_set_nth_same {A : Type} (w : nat) (y : A) :
  forall ws x, nth_error ws w = Some x -> nth_error (Sched.set_nth w y ws) w = Some y.
Proof.
  induction w as [|w IH]; intros [|x' ws] x H; simpl in *; try discriminate.
  - reflexivity.
  - now apply (IH ws x).
Qed.

Lemma nth_error_set_nth_other {A : Type} (w : nat) (y : A) :
  forall ws w', w <> w' -> nth_error (Sched.set_nth w y ws) w' = nth_error ws w'.
Proof.
  induction w as [|w IH]; intros [|x ws] [|w'] H; simpl; try reflexivity;
    try congruence.
  apply IH. congruence.
Qed.

Lemma holding_take (w : nat) (p : Sched.addr) :
  forall ws, nth_error ws w = Some None ->
             holding (Sched.set_nth w (Some p) ws) = S (holding ws).
Proof.
  induction w as [|w IH]; intros [|x ws] H; simpl in *; try discriminate.
  - injection H as ->. reflexivity.
  - unfold holding in *. simpl. destruct (is_some x); simpl; now rewrite (IH ws H).
Qed.

Lemma holding_give (w : nat) (p : Sched.addr) :
  forall ws, nth_error ws w = Some (Some p) ->
             S (holding (Sched.set_nth w None ws)) = holding ws.
Proof.
  induction w as [|w IH]; intros [|x ws] H; simpl in *; try discriminate.
  - injection H as ->. reflexivity.
  - unfold holding in *. simpl. destruct (is_some x); simpl; now rewrite <- (IH ws H).
Qed.

Lemma is_gone_In (st : state) (w : nat) : is_gone st w = true <-> In w (gone st).
Proof.
  unfold is_gone. rewrite existsb_exists. split.
  - intros [x [Hin Heq]]. apply Nat.eqb_eq in Heq. now subst.
  - intro Hin. exists w. split; [exact Hin|apply Nat.eqb_refl].
Qed.

Lemma boot_invariant (ops : list producerOp) : invariant ops (boot ops).
Proof.
  unfold invariant, boot.
  cbn [core closed gone Sched.todo Sched.chan Sched.workers Sched.exported
       List.length holding filter].
  split; [unfold CHAN_SZ; lia|]. split; [lia|].
  split; [congruence|intros w []].
Qed.

Lemma sends_cons_Assign (v : cloudeventdata) (ops : list producerOp) :
  sends (Assign v :: ops) = sends ops.
Proof. reflexivity. Qed.

Lemma sends_cons_SendAddr (ops : list producerOp) :
  sends (SendAddr :: ops) = S (sends ops).
Proof. reflexivity. Qed.

Ltac proj :=
  cbn [core closed gone Sched.cell Sched.todo Sched.chan Sched.workers
       Sched.exported] in *.

(** Every step keeps the invariant. *)
Lemma step_invariant (ops : list producerOp) (ev : event) (st st' : state) :
  invariant ops st -> step ev st = Next st' -> invariant ops st'.
Proof.
  intros [Hcap [Hcount [Hgone Hidle]]] Hstep.
  destruct st as [[cell todo chan ws exported] cl gn].
  unfold invariant in *. proj.
  destruct ev as [[err|]| |[|w|w]|w];
    cbn [step with_core Sched.step core closed gone Sched.cell Sched.todo
         Sched.chan Sched.workers Sched.exported] in Hstep.
  - injection Hstep as <-. proj. auto.
  - injection Hstep as <-. proj. rewrite holding_app.
    change (holding [None; None]) with 0%nat.
    split; [exact Hcap|]. split; [lia|]. split; [exact Hgone|].
    intros w Hw. specialize (Hidle w Hw).
    rewrite nth_error_app1; [exact Hidle|].
    apply nth_error_Some. congruence.
  - destruct cl; [discriminate|]. injection Hstep as <-. proj.
    split; [exact Hcap|]. split; [exact Hcount|]. split; [|exact Hidle].
    intro H. destruct (Hgone H). discriminate.
  - destruct todo as [|[v|] todo]; try discriminate.
    + injection Hstep as <-. proj. auto.
    + destruct cl; [discriminate|].
      destruct (List.length chan <? CHAN_SZ)%nat eqn:E; [|discriminate].
      injection Hstep as <-. proj. apply Nat.ltb_lt in E.
      rewrite length_app. cbn [List.length].
      rewrite sends_cons_SendAddr in Hcount.
      split; [lia|]. split; [lia|]. split; [|exact Hidle].
      intro H. destruct (Hgone H). discriminate.
  - destruct (is_gone _ w) eqn:Eg; [discriminate|].
    destruct (nth_error ws w) as [[p|]|] eqn:Ew; try discriminate.
    destruct chan as [|p chan]; [discriminate|].
    injection Hstep as <-. proj. cbn [List.length] in *.
    rewrite (holding_take w p ws Ew).
    split; [lia|]. split; [lia|]. split.
    + intro H. destruct (Hgone H). discriminate.
    + intros w' Hw'. rewrite nth_error_set_nth_other; [now apply Hidle|].
      intros ->. apply eq_true_false_abs in Eg; [exact Eg|].
      now apply is_gone_In.
  - destruct (nth_error ws w) as [[p|]|] eqn:Ew; try discriminate.
    injection Hstep as <-. proj.
    pose proof (holding_give w p ws Ew) as Hh. rewrite length_app. cbn [List.length].
    split; [exact Hcap|]. split; [lia|]. split; [exact Hgone|].
    intros w' Hw'. destruct (Nat.eq_dec w w') as [->|Hne].
    + now apply (nth_error_set_nth_same w' None ws (Some p)).
    + rewrite nth_error_set_nth_other; [now apply Hidle|exact Hne].
  - destruct (nth_error ws w) as [[p|]|] eqn:Ew; try discriminate.
    destruct chan as [|p chan]; [|discriminate].
    destruct (cl && negb (is_gone _ w)) eqn:Ec; [|discriminate].
    injection Hstep as <-. proj. apply andb_prop in Ec as [-> _].
    split; [exact Hcap|]. split; [exact Hcount|]. split; [auto|].
    intros w' [<-|Hw']; [exact Ew|now apply Hidle].
Qed.

Lemma run_invariant (ops : list producerOp) (evs : list event) :
  forall st st', invariant ops st -> run evs st = Next st' -> invariant ops st'.
Proof.
  induction evs as [|ev evs IH]; intros st st' Hinv Hrun; cbn in Hrun.
  - now injection Hrun as <-.
  - destruct (step ev st) as [st1| |] eqn:Hs; try discriminate.
    apply (IH st1 st'); [|exact Hrun]. now apply (step_invariant ops ev st).
Qed.


Lemma run_app (evs1 evs2 : list event) :
  forall st st1, run evs1 st = Next st1 -> run (evs1 ++ evs2)%list st = run evs2 st1.
Proof.
  induction evs1 as [|ev evs1 IH]; intros st st1 H; cbn [run app] in *.
  - now injection H as <-.
  - destruct (step ev st) as [st'| |]; try discriminate. now apply IH.
Qed.

Lemma repeat_snoc {A : Type} (x : A) (k : nat) (l : list A) :
  (repeat x k ++ x :: l)%list = (repeat x (S k) ++ l)%list.
Proof. induction k as [|k IH]; [reflexivity|]. cbn [repeat app]. now rewrite IH. Qed.

Lemma nth_error_repeat_app {A : Type} (x y : A) (k : nat) (l : list A) :
  nth_error (repeat x k ++ y :: l)%list k = Some y.
Proof. induction k as [|k IH]; [reflexivity|exact IH]. Qed.

Lemma set_nth_repeat_app {A : Type} (x y z : A) (k : nat) (l : list A) :
  Sched.set_nth k z (repeat x k ++ y :: l)%list = (repeat x k ++ z :: l)%list.
Proof. induction k as [|k IH]; [reflexivity|]. cbn. now rewrite IH. Qed.

Lemma put_self (st : state) :
  put st (Sched.chan (core st)) (Sched.workers (core st)) (Sched.exported (core st))
    (gone st) = st.
Proof. now destruct st as [[? ? ? ? ?] ? ?]. Qed.

Lemma step_export (st : state) (ch : list Sched.addr) (ws : list (option Sched.addr))
    (ex : list (nat * cloudeventdata)) (gn : list nat) (w : nat) (p : Sched.addr) :
  nth_error ws w = Some (Some p) ->
  step (Thread (Sched.Export w)) (put st ch ws ex gn)
  = Next (put st ch (Sched.set_nth w None ws)
            (ex ++ [(w, Sched.cell (core st))])%list gn).
Proof.
  intro H. unfold step, put, Sched.step.
  cbn [core Sched.workers]. rewrite H. destruct p. reflexivity.
Qed.

Lemma step_receive (st : state) (p : Sched.addr) (ch : list Sched.addr)
    (ws : list (option Sched.addr)) (ex : list (nat * cloudeventdata))
    (gn : list nat) (w : nat) :
  nth_error ws w = Some None ->
  existsb (Nat.eqb w) gn = false ->
  step (Thread (Sched.Receive w)) (put st (p :: ch) ws ex gn)
  = Next (put st ch (Sched.set_nth w (Some p) ws) ex gn).
Proof.
  intros H Hg. unfold step, is_gone, put, Sched.step.
  cbn [core gone Sched.workers Sched.chan]. now rewrite Hg, H.
Qed.

Lemma step_leave (st : state) (ws : list (option Sched.addr))
    (ex : list (nat * cloudeventdata)) (gn : list nat) (w : nat) :
  closed st = true ->
  nth_error ws w = Some None ->
  existsb (Nat.eqb w) gn = false ->
  step (Leave w) (put st [] ws ex gn) = Next (put st [] ws ex (w :: gn)).
Proof.
  intros Hc H Hg. unfold step, is_gone, put.
  cbn [core gone closed Sched.workers Sched.chan]. now rewrite H, Hc, Hg.
Qed.

(** First part of the drain: the workers that hold a pointer read through
    it. *)
Lemma drain_holders (st : state) (ch : list Sched.addr) (gn : list nat)
    (ws : list (option Sched.addr)) :
  forall k ex,
  exists ex',
    run (map (fun w => Thread (Sched.Export w)) (holders k ws))
      (put st ch (repeat None k ++ ws)%list ex gn)
    = Next (put st ch (repeat None (k + List.length ws)) ex' gn)
    /\ List.length ex' = (List.length ex + holding ws)%nat.
Proof.
  induction ws as [|[p|] ws IH]; intros k ex.
  - exists ex. cbn [holders map run List.length]. rewrite app_nil_r, Nat.add_0_r.
    split; [reflexivity|]. unfold holding. simpl. lia.
  - cbn [holders map run].
    rewrite (step_export st ch _ ex gn k p (nth_error_repeat_app None (Some p) k ws)).
    rewrite set_nth_repeat_app, repeat_snoc.
    destruct (IH (S k) (ex ++ [(k, Sched.cell (core st))])%list) as [ex' [Hrun Hlen]].
    exists ex'. rewrite Hrun. cbn [List.length]. rewrite Nat.add_succ_r.
    split; [reflexivity|].
    rewrite Hlen, length_app. unfold holding. simpl. lia.
  - cbn [holders]. rewrite repeat_snoc.
    destruct (IH (S k) ex) as [ex' [Hrun Hlen]]. exists ex'.
    rewrite Hrun. cbn [List.length]. rewrite Nat.add_succ_r. split; [reflexivity|].
    rewrite Hlen. unfold holding. simpl. lia.
Qed.

(** Second part: worker 0 takes and reads what the channel holds. *)
Lemma drain_channel (st : state) (n : nat) (ch : list Sched.addr) :
  forall ex,
  exists ex',
    run (flat_map (fun _ => [Thread (Sched.Receive 0); Thread (Sched.Export 0)]) ch)
      (put st ch (repeat None (S n)) ex [])
    = Next (put st [] (repeat None (S n)) ex' [])
    /\ List.length ex' = (List.length ex + List.length ch)%nat.
Proof.
  induction ch as [|p ch IH]; intro ex.
  - exists ex. split; [reflexivity|]. simpl. lia.
  - cbn [flat_map app run].
    rewrite (step_receive st p ch (repeat None (S n)) ex [] 0 eq_refl eq_refl).
    cbn [repeat Sched.set_nth].
    rewrite (step_export st ch (Some p :: repeat None n) ex [] 0 p eq_refl).
    cbn [Sched.set_nth].
    destruct (IH (ex ++ [(0%nat, Sched.cell (core st))])%list) as [ex' [Hrun Hlen]].
    exists ex'. cbn [repeat] in Hrun. rewrite Hrun.
    split; [reflexivity|]. rewrite Hlen, length_app. simpl. lia.
Qed.


Lemma nth_error_repeat {A : Type} (x : A) (m i : nat) :
  (i < m)%nat -> nth_error (repeat x m) i = Some x.
Proof.
  revert i. induction m as [|m IH]; intros [|i] H; try lia; [reflexivity|].
  apply IH. lia.
Qed.

Lemma existsb_eqb_In (w : nat) (gn : list nat) :
  existsb (Nat.eqb w) gn = true <-> In w gn.
Proof.
  rewrite existsb_exists. split.
  - intros [x [Hin Heq]]. apply Nat.eqb_eq in Heq. now subst.
  - intro Hin. exists w. split; [exact Hin|apply Nat.eqb_refl].
Qed.

(** Third part: every worker that has not left leaves. *)
Lemma drain_leave (st st0 : state) (m : nat) (ex : list (nat * cloudeventdata)) :
  closed st = true ->
  forall n i gn,
    (i + n = m)%nat ->
    (forall w, In w gn <-> In w (gone st0) \/ (w < i)%nat) ->
    exists gn',
      run (map Leave (remaining st0 i n)) (put st [] (repeat None m) ex gn)
      = Next (put st [] (repeat None m) ex gn')
      /\ (forall w, In w gn' <-> In w (gone st0) \/ (w < i + n)%nat).
Proof.
  intros Hc. induction n as [|n IH]; intros i gn Hm Hgn.
  - exists gn. split; [reflexivity|]. intro w. rewrite Hgn, Nat.add_0_r. tauto.
  - cbn [remaining]. destruct (is_gone st0 i) eqn:Eg.
    + destruct (IH (S i) gn) as [gn' [Hrun Hgn']]; [lia| |].
      * intro w. rewrite Hgn. apply is_gone_In in Eg.
        split; [intros [H|H]; [now left|right; lia]|].
        intros [H|H]; [now left|].
        destruct (Nat.eq_dec w i) as [->|Hne]; [now left|right; lia].
      * exists gn'. split; [exact Hrun|]. intro w. rewrite Hgn'.
        replace (S i + n)%nat with (i + S n)%nat by lia. tauto.
    + cbn [map run]. rewrite step_leave; [|exact Hc|apply nth_error_repeat; lia|].
      * destruct (IH (S i) (i :: gn)) as [gn' [Hrun Hgn']]; [lia| |].
        -- intro w. cbn [In]. rewrite Hgn.
           split; [intros [<-|[H|H]]; [right; lia|now left|right; lia]|].
           intros [H|H]; [right; now left|].
           destruct (Nat.eq_dec i w) as [->|Hne]; [now left|right; right; lia].
        -- exists gn'. split; [exact Hrun|]. intro w. rewrite Hgn'.
           replace (S i + n)%nat with (i + S n)%nat by lia. tauto.
      * destruct (existsb (Nat.eqb i) gn) eqn:E; [|reflexivity].
        apply existsb_eqb_In, Hgn in E. destruct E as [E|E]; [|lia].
        apply is_gone_In in E. congruence.
Qed.

Lemma holding_all_idle (ws : list (option Sched.addr)) :
  (forall w, (w < List.length ws)%nat -> nth_error ws w = Some None) ->
  holding ws = 0%nat.
Proof.
  induction ws as [|x ws IH]; intro H; [reflexivity|].
  pose proof (H 0%nat) as H0. cbn in H0.
  assert (x = None) as -> by (specialize (H0 ltac:(lia)); congruence).
  unfold holding in *. cbn [filter is_some]. apply IH.
  intros w Hw. apply (H (S w)). cbn. lia.
Qed.

(** Once every spawned worker has left, the channel is closed and empty
    and what was read accounts for every completed send. *)
Lemma all_gone_counts (ops : list producerOp) (st : state) :
  invariant ops st ->
  Sched.workers (core st) <> [] ->
  all_gone st ->
  closed st = true
  /\ Sched.chan (core st) = []
  /\ List.length (Sched.exported (core st)) = sent ops st.
Proof.
  intros [Hcap [Hcount [Hgone Hidle]]] Hws Hall.
  assert (Hne : gone st <> []).
  { destruct (Sched.workers (core st)) as [|x ws] eqn:E; [congruence|].
    intro Hnil. specialize (Hall 0%nat). rewrite E, Hnil in Hall.
    apply Hall. cbn. lia. }
  destruct (Hgone Hne) as [Hc Hch]. split; [exact Hc|]. split; [exact Hch|].
  unfold sent. rewrite Hcount, Hch.
  rewrite holding_all_idle; [cbn [List.length]; lia|].
  intros w Hw. apply Hidle. now apply Hall.
Qed.

End LifecycleFacts.

(* ================================================================== *)
(** * Start, pushes and shutdown together *)
(* ================================================================== *)

Module LifecycleTheorems.
Import Exporter MoreSpec Lifecycle LifecycleFacts Samples MoreSamples.

(** X13: in every state the exporter reaches from its construction,
    whatever [start], [pushLogs], the workers and [shutdown] did and in
    whatever order, the channel holds at most [CHAN_SZ] pointers. *)
Theorem channel_within_capacity (ops : list producerOp) (evs : list event) (st : state) :
  run evs (boot ops) = Next st ->
  (List.length (Sched.chan (core st)) <= CHAN_SZ)%nat.
Proof.
  intro H. now destruct (run_invariant ops evs _ _ (boot_invariant ops) H).
Qed.

(** X14: no pointer is lost or duplicated: in every state the exporter
    reaches, the sends [pushLogs] has completed are as many as the
    pointers waiting in the channel, the pointers held by workers and the
    reads already done, taken together. *)
Theorem every_pointer_accounted (ops : list producerOp) (evs : list event) (st : state) :
  run evs (boot ops) = Next st ->
  sent ops st
  = (List.length (Sched.chan (core st)) + holding (Sched.workers (core st))
     + List.length (Sched.exported (core st)))%nat.
Proof.
  intro H.
  destruct (run_invariant ops evs _ _ (boot_invariant ops) H) as [_ [Hc _]].
  unfold sent. lia.
Qed.

(** X15: when every worker that was spawned has left its loop, the channel
    had been closed and is empty, and the workers have read through a
    pointer once for every send [pushLogs] completed. *)
Theorem workers_leave_only_after_drain (ops : list producerOp) (evs : list event)
    (st : state) :
  run evs (boot ops) = Next st ->
  Sched.workers (core st) <> [] ->
  all_gone st ->
  closed st = true
  /\ Sched.chan (core st) = []
  /\ List.length (Sched.exported (core st)) = sent ops st.
Proof.
  intros H. apply all_gone_counts.
  exact (run_invariant ops evs _ _ (boot_invariant ops) H).
Qed.

(** X16: closing the channel while pointers are queued or held is safe:
    from any state reached after [start] and [shutdown], the workers can
    run to the end without a panic and without the producer; they read
    through every pointer that was sent, and all of them leave. *)
Theorem shutdown_drains (ops : list producerOp) (evs : list event) (st : state) :
  run evs (boot ops) = Next st ->
  closed st = true ->
  Sched.workers (core st) <> [] ->
  exists st',
    run (drain st) st = Next st'
    /\ all_gone st'
    /\ Sched.todo (core st') = Sched.todo (core st)
    /\ List.length (Sched.exported (core st')) = sent ops st.
Proof.
  intros Hrun Hc Hws.
  pose proof (run_invariant ops evs _ _ (boot_invariant ops) Hrun) as Hinv.
  destruct Hinv as [Hcap [Hcount [Hgone Hidle]]].
  unfold drain.
  destruct (drain_holders st (Sched.chan (core st)) (gone st) (Sched.workers (core st))
              0%nat (Sched.exported (core st))) as [ex1 [H1 L1]].
  cbn [repeat app Nat.add] in H1. rewrite put_self in H1.
  destruct (List.length (Sched.workers (core st))) as [|n] eqn:En.
  { destruct (Sched.workers (core st)); [congruence|discriminate]. }
  assert (H2 : exists ex2,
             run (flat_map (fun _ => [Thread (Sched.Receive 0); Thread (Sched.Export 0)])
                    (Sched.chan (core st)))
               (put st (Sched.chan (core st)) (repeat None (S n)) ex1 (gone st))
             = Next (put st [] (repeat None (S n)) ex2 (gone st))
             /\ List.length ex2 = (List.length ex1 + List.length (Sched.chan (core st)))%nat).
  { destruct (Sched.chan (core st)) as [|p ch] eqn:Ech.
    - exists ex1. split; [reflexivity|]. simpl. lia.
    - destruct (gone st) as [|w gn] eqn:Eg.
      + apply drain_channel.
      + destruct Hgone as [_ Hch]; [discriminate|discriminate]. }
  destruct H2 as [ex2 [H2 L2]].
  destruct (drain_leave st st (S n) ex2 Hc (S n) 0%nat (gone st)) as [gn' [H3 Hgn']];
    [lia|intro w; split; [now left|intros [H|H]; [exact H|lia]]|].
  exists (put st [] (repeat None (S n)) ex2 gn').
  split; [|split; [|split]].
  - rewrite (run_app _ _ st _ H1), (run_app _ _ _ _ H2). exact H3.
  - intros w Hw. cbn [put core gone Sched.workers] in *.
    rewrite repeat_length in Hw. apply Hgn'. right. lia.
  - reflexivity.
  - cbn [put core Sched.exported]. unfold sent. lia.
Qed.

Lemma channel_within_capacity_witness :
  (List.length (Sched.chan (core (state_after busy_life))) <= CHAN_SZ)%nat.
Proof.
  apply (channel_within_capacity two_ops busy_life (state_after busy_life)).
  vm_compute. reflexivity.
Defined.

Lemma every_pointer_accounted_witness :
  sent two_ops (state_after busy_life)
  = (List.length (Sched.chan (core (state_after busy_life)))
     + holding (Sched.workers (core (state_after busy_life)))
     + List.length (Sched.exported (core (state_after busy_life))))%nat.
Proof.
  apply (every_pointer_accounted two_ops busy_life (state_after busy_life)).
  vm_compute. reflexivity.
Defined.

Lemma workers_leave_only_after_drain_witness :
  closed (state_after whole_life) = true
  /\ Sched.chan (core (state_after whole_life)) = []
  /\ List.length (Sched.exported (core (state_after whole_life)))
     = sent two_ops (state_after whole_life).
Proof.
  apply (workers_leave_only_after_drain two_ops whole_life (state_after whole_life)).
  - vm_compute. reflexivity.
  - vm_compute. discriminate.
  - intros w Hw. vm_compute in Hw. vm_compute.
    destruct w as [|[|w]]; [right; now left|now left|lia].
Defined.

Lemma shutdown_drains_witness :
  exists st',
    run (drain (state_after busy_life)) (state_after busy_life) = Next st'
    /\ all_gone st'
    /\ Sched.todo (core st') = Sched.todo (core (state_after busy_life))
    /\ List.length (Sched.exported (core st')) = sent two_ops (state_after busy_life).
Proof.
  apply (shutdown_drains two_ops busy_life (state_after busy_life)).
  - vm_compute. reflexivity.
  - vm_compute. reflexivity.
  - vm_compute. discriminate.
Defined.

End LifecycleTheorems.

(* ================================================================== *)
(** * Properties of the decimal numerals *)
(* ================================================================== *)

Module NumeralFacts.
Import Go.

Lemma digits_of_uint_acc (d : Decimal.uint) :
  forall acc : positive,
    digits_value (Z.pos acc) (NilEmpty.string_of_uint d)
    = Some (Z.pos (Pos.of_uint_acc d acc)).
Proof.
  induction d; intro acc; cbn [NilEmpty.string_of_uint digits_value Pos.of_uint_acc];
    try reflexivity;
    match goal with
    | |- context [digit ?c] =>
        let v := eval vm_compute in (digit c) in change (digit c) with v
    end;
    cbv iota beta; rewrite <- IHd; f_equal; lia.
Qed.

Lemma digits_of_uint (d : Decimal.uint) :
  digits_value 0 (NilEmpty.string_of_uint d) = Some (Z.of_N (Pos.of_uint d)).
Proof.
  induction d; cbn [NilEmpty.string_of_uint digits_value Pos.of_uint];
    try reflexivity;
    match goal with
    | |- context [digit ?c] =>
        let v := eval vm_compute in (digit c) in change (digit c) with v
    end;
    cbv iota beta; try exact IHd;
    cbn [Z.of_N]; rewrite <- digits_of_uint_acc; f_equal.
Qed.

Lemma digits_of_positive (p : positive) :
  digits_value 0 (NilEmpty.string_of_uint (Pos.to_uint p)) = Some (Z.pos p).
Proof.
  rewrite digits_of_uint, DecimalPos.Unsigned.of_to. reflexivity.
Qed.



Lemma to_uint_cases (p : positive) :
  exists c t, NilEmpty.string_of_uint (Pos.to_uint p) = String c t
              /\ exists d0, digit c = Some d0.
Proof.
  pose proof (DecimalPos.Unsigned.to_uint_nonnil p) as Hnn.
  destruct (Pos.to_uint p); [congruence| | | | | | | | | |];
    cbn [NilEmpty.string_of_uint]; eexists; eexists; (split; [reflexivity|]);
    eexists; vm_compute; reflexivity.
Qed.

(** Formatting then parsing an [int] gives it back. *)
Lemma Atoi_Itoa (z : Z) : MinInt64 <= z <= MaxInt64 -> Atoi (Itoa z) = Some z.
Proof.
  intro Hr.
  assert (Hrange : (MinInt64 <=? z) && (z <=? MaxInt64) = true).
  { apply andb_true_iff. split; apply Z.leb_le; lia. }
  unfold Itoa. destruct z as [|p|p]; cbn [Z.to_int NilZero.string_of_int].
  - reflexivity.
  - pose proof (digits_of_positive p) as Hd.
    pose proof (DecimalPos.Unsigned.to_uint_nonnil p) as Hnn.
    unfold NilZero.string_of_uint.
    destruct (Pos.to_uint p) eqn:E; [congruence| | | | | | | | | |];
      cbn [NilEmpty.string_of_uint] in *; unfold Atoi;
      cbv iota beta; rewrite Hd, Hrange; reflexivity.
  - pose proof (digits_of_positive p) as Hd.
    pose proof (DecimalPos.Unsigned.to_uint_nonnil p) as Hnn.
    unfold NilZero.string_of_uint.
    destruct (Pos.to_uint p) eqn:E; [congruence| | | | | | | | | |];
      cbn [NilEmpty.string_of_uint] in *; unfold Atoi;
      cbv iota beta; rewrite Hd; cbn [option_map Z.opp]; rewrite Hrange; reflexivity.
Qed.

(** A value that starts with a byte other than a sign or a digit does not
    parse. *)
Lemma Atoi_not_numeral (c : ascii) (t : string) :
  digit c = None -> c <> "+"%char -> c <> "-"%char -> Atoi (String c t) = None.
Proof.
  intros Hd Hp Hm. unfold Atoi.
  destruct c as [[|] [|] [|] [|] [|] [|] [|] [|]];
    try (exfalso; apply Hp; reflexivity); try (exfalso; apply Hm; reflexivity);
    cbv iota beta; cbn [digits_value]; rewrite Hd; reflexivity.
Qed.


(** The decimal form of a positive number does not start with a zero. *)
Lemma to_uint_no_leading_zero (p : positive) (l : Decimal.uint) :
  Pos.to_uint p <> Decimal.D0 l.
Proof.
  intro E.
  pose proof (DecimalPos.Unsigned.to_of (Pos.to_uint p)) as H.
  rewrite DecimalPos.Unsigned.of_to in H. cbn [N.to_uint] in H.
  rewrite E in H. rewrite Stdlib.Numbers.DecimalFacts.unorm_D0 in H.
  unfold Decimal.unorm in H.
  destruct (Decimal.nzhead l) eqn:En; try discriminate H.
  - injection H as Hl. subst l. now apply (DecimalPos.Unsigned.to_uint_nonzero p).
  - injection H as Hl. subst l.
    pose proof (Stdlib.Numbers.DecimalFacts.nb_digits_nzhead u) as Hn.
    rewrite En in Hn. cbn [Decimal.nb_digits] in Hn. lia.
Qed.

Lemma span_digits_uint (d : Decimal.uint) (c : ascii) (rest : string) :
  digit c = None ->
  Json.span_digits (NilEmpty.string_of_uint d ++ String c rest)
  = (NilEmpty.string_of_uint d, String c rest).
Proof.
  intro Hc.
  induction d; cbn [NilEmpty.string_of_uint append Json.span_digits];
    try (rewrite Hc; reflexivity);
    match goal with
    | |- context [digit ?x] =>
        let v := eval vm_compute in (digit x) in change (digit x) with v
    end;
    cbv iota beta; rewrite IHd; reflexivity.
Qed.

(** The reader finds the number [Itoa] wrote, up to the byte that follows
    it. *)
Lemma integer_Itoa (z : Z) (c : ascii) (rest : string) :
  digit c = None ->
  Json.integer (Itoa z ++ String c rest) = Some (z, String c rest).
Proof.
  intro Hc. unfold Itoa.
  destruct z as [|p|p]; cbn [Z.to_int NilZero.string_of_int].
  - pose proof (span_digits_uint (Decimal.D0 Decimal.Nil) c rest Hc) as Hs.
    cbn [NilZero.string_of_uint NilEmpty.string_of_uint append] in *.
    unfold Json.integer. cbv iota beta. rewrite Hs. reflexivity.
  - pose proof (digits_of_positive p) as Hd.
    pose proof (DecimalPos.Unsigned.to_uint_nonnil p) as Hnn.
    pose proof (to_uint_no_leading_zero p) as Hnz.
    pose proof (span_digits_uint (Pos.to_uint p) c rest Hc) as Hs.
    unfold NilZero.string_of_uint.
    destruct (Pos.to_uint p) eqn:E; [congruence|now elim (Hnz u)| | | | | | | | |];
      cbn [NilEmpty.string_of_uint append] in *; unfold Json.integer;
      cbv iota beta; rewrite Hs; cbv iota beta; rewrite Hd; reflexivity.
  - pose proof (digits_of_positive p) as Hd.
    pose proof (DecimalPos.Unsigned.to_uint_nonnil p) as Hnn.
    pose proof (to_uint_no_leading_zero p) as Hnz.
    pose proof (span_digits_uint (Pos.to_uint p) c rest Hc) as Hs.
    unfold NilZero.string_of_uint.
    destruct (Pos.to_uint p) eqn:E; [congruence|now elim (Hnz u)| | | | | | | | |];
      cbn [NilEmpty.string_of_uint append] in *; unfold Json.integer;
      cbv iota beta; rewrite Hs; cbv iota beta; rewrite Hd; reflexivity.
Qed.

(** The first byte [Itoa] writes is a digit or the minus sign, never a
    double quote. *)
Lemma value_Itoa (z : Z) (c : ascii) (rest : string) :
  digit c = None ->
  Json.value (Itoa z ++ String c rest) = Some (Json.JNumber z, String c rest).
Proof.
  intro Hc. pose proof (integer_Itoa z c rest Hc) as Hi.
  unfold Json.value.
  destruct (Itoa z ++ String c rest) as [|a s'] eqn:E.
  - unfold Json.integer in Hi. discriminate Hi.
  - assert (Ha : (byteZ a =? 34) = false).
    { unfold Itoa in E. destruct z as [|p|p]; cbn [Z.to_int NilZero.string_of_int] in E.
      - injection E as <- _. reflexivity.
      - pose proof (DecimalPos.Unsigned.to_uint_nonnil p) as Hnn.
        unfold NilZero.string_of_uint in E.
        destruct (Pos.to_uint p); [congruence| | | | | | | | | |];
          cbn [NilEmpty.string_of_uint append] in E; injection E as <- _; reflexivity.
      - injection E as <- _. reflexivity. }
    rewrite Ha, Hi. reflexivity.
Qed.

End NumeralFacts.

(* ================================================================== *)
(** * Properties of the body *)
(* ================================================================== *)

Module BodyFacts.
Import Go Exporter Spec MoreSpec Utf8Facts EscapeFacts NumeralFacts.

Lemma byteZ_34 (c : ascii) : byteZ c = 34 -> c = dquote.
Proof. intro H. rewrite <- (byte_of_Z_byteZ c), H. reflexivity. Qed.

Lemma byteZ_92 (c : ascii) : byteZ c = 92 -> c = backslash.
Proof. intro H. rewrite <- (byte_of_Z_byteZ c), H. reflexivity. Qed.

(** The reader takes plain text up to the quote that follows it. *)
Lemma string_tail_plain (s rest : string) :
  plain s = true ->
  Json.string_tail (s ++ String dquote rest) = Some (s, rest).
Proof.
  induction s as [|c s IH]; intro H; [reflexivity|].
  cbn [plain] in H. apply andb_prop in H as [Hc Hs].
  unfold plain_byte in Hc. apply andb_prop in Hc as [Hc H92].
  apply andb_prop in Hc as [H32 H34].
  apply negb_true_iff in H34, H92. apply Z.leb_le in H32.
  cbn [append Json.string_tail]. rewrite H34, H92.
  replace (byteZ c <? 32) with false by (symmetry; apply Z.ltb_ge; lia).
  now rewrite (IH Hs).
Qed.

(** The reader takes an escaped message up to the quote that follows it. *)
Lemma string_tail_escaped (m rest : string) :
  plain_but_quotes m = true ->
  Json.string_tail (escape_quotes m ++ String dquote rest)
  = Some (escape_quotes m, rest).
Proof.
  induction m as [|c m IH]; intro H; [reflexivity|].
  cbn [plain_but_quotes] in H. apply andb_prop in H as [Hc Hm].
  apply andb_prop in Hc as [H32 H92].
  apply negb_true_iff in H92. apply Z.leb_le in H32.
  cbn [escape_quotes]. destruct (ascii_dec dquote c) as [<-|Hq].
  - cbn [append Json.string_tail].
    change (byteZ backslash =? 34) with false.
    change (byteZ backslash =? 92) with true.
    change (Json.simple_escape dquote) with true.
    cbv iota beta. now rewrite (IH Hm).
  - cbn [append Json.string_tail]. rewrite H92.
    replace (byteZ c =? 34) with false.
    + replace (byteZ c <? 32) with false by (symmetry; apply Z.ltb_ge; lia).
      now rewrite (IH Hm).
    + symmetry. apply Z.eqb_neq. intro E. apply Hq. symmetry. now apply byteZ_34.
Qed.

Lemma plain_but_quotes_of_plain (s : string) : plain s = true -> plain_but_quotes s = true.
Proof.
  induction s as [|c s IH]; [reflexivity|]. cbn [plain plain_but_quotes].
  unfold plain_byte. intro H. apply andb_prop in H as [Hc Hs].
  apply andb_prop in Hc as [Hc H92]. apply andb_prop in Hc as [H32 _].
  now rewrite H32, H92, (IH Hs).
Qed.

(** One member with a string value, followed by a comma or closing the
    object. *)
Lemma members_string (n : nat) (key v spelling rest : string) :
  plain key = true ->
  (forall r, Json.string_tail (v ++ String dquote r) = Some (spelling, r)) ->
  Json.members (S n) (string_member key v (String "," rest))
  = option_map (cons (key, Json.JString spelling)) (Json.members n rest).
Proof.
  intros Hk Hv. unfold string_member. cbn [Json.members].
  change (byteZ dquote =? 34) with true. cbv iota beta.
  rewrite (string_tail_plain key _ Hk). cbv iota beta.
  unfold Json.value. change (byteZ dquote =? 34) with true. cbv iota beta.
  rewrite Hv. reflexivity.
Qed.

Lemma members_last_string (n : nat) (key v spelling : string) :
  plain key = true ->
  (forall r, Json.string_tail (v ++ String dquote r) = Some (spelling, r)) ->
  Json.members (S n) (string_member key v "}") = Some [(key, Json.JString spelling)].
Proof.
  intros Hk Hv. unfold string_member. cbn [Json.members].
  change (byteZ dquote =? 34) with true. cbv iota beta.
  rewrite (string_tail_plain key _ Hk). cbv iota beta.
  unfold Json.value. change (byteZ dquote =? 34) with true. cbv iota beta.
  rewrite Hv. reflexivity.
Qed.

Lemma members_number (n : nat) (key : string) (z : Z) (rest : string) :
  plain key = true ->
  Json.members (S n) (number_member key z (String "," rest))
  = option_map (cons (key, Json.JNumber z)) (Json.members n rest).
Proof.
  intros Hk. unfold number_member. cbn [Json.members].
  change (byteZ dquote =? 34) with true. cbv iota beta.
  rewrite (string_tail_plain key _ Hk). cbv iota beta.
  rewrite (value_Itoa z ","%char rest eq_refl). reflexivity.
Qed.

(** The body as the template spells it. *)
Lemma json_body_shape (ce : cloudeventdata) :
  json_body ce =
  String "{"
    (string_member "reason" (reason ce) (String ","
    (string_member "start_time" (startTime ce) (String ","
    (string_member "name" (name ce) (String ","
    (string_member "namespace" (namespace ce) (String ","
    (number_member "count" (count ce) (String ","
    (string_member "message" (escape_quotes (message ce)) "}"))))))))))).
Proof.
  unfold json_body. rewrite ReplaceAll_quotes. reflexivity.
Qed.

Lemma object_members (key v rest : string) :
  Json.object (String "{" (string_member key v rest))
  = Json.members
      (S (String.length
            (key ++ String dquote (String ":" (String dquote (v ++ String dquote rest))))))
      (string_member key v rest).
Proof. reflexivity. Qed.

(** Dropping the backslashes of the escaping gives the text back. *)
Lemma escape_quotes_head (s : string) :
  match escape_quotes s with
  | String d _ => d <> dquote
  | EmptyString => True
  end.
Proof.
  destruct s as [|c s]; [exact I|]. cbn [escape_quotes].
  destruct (ascii_dec dquote c) as [_|H]; [discriminate|congruence].
Qed.

Lemma unescape_escape (s : string) : unescape_quotes (escape_quotes s) = s.
Proof.
  induction s as [|c s IH]; [reflexivity|].
  cbn [escape_quotes]. destruct (ascii_dec dquote c) as [<-|Hq].
  - cbn [unescape_quotes].
    destruct (ascii_dec backslash backslash) as [_|H]; [|now elim H].
    destruct (ascii_dec dquote dquote) as [_|H]; [|now elim H].
    now rewrite IH.
  - pose proof (escape_quotes_head s) as Hh.
    cbn [unescape_quotes]. rewrite IH.
    destruct (escape_quotes s) as [|d t] eqn:E.
    + cbn [unescape_quotes] in IH. now subst s.
    + destruct (ascii_dec backslash c) as [_|_]; [|reflexivity].
      destruct (ascii_dec dquote d) as [<-|_]; [now elim Hh|reflexivity].
Qed.

End BodyFacts.

Module BodyTheorems.
Import Go Exporter Spec MoreSpec Samples BodyFacts EscapeFacts.

(** X17: for an event whose reason, start time, name and namespace hold
    no control byte, double quote or backslash, and whose message holds no
    control byte or backslash (double quotes are welcome), the body the
    worker serializes reads as a JSON object with exactly the six members
    reason, start_time, name, namespace, count and message, in this order,
    with the values of the event, the message being spelled with its
    quotes escaped. *)
Theorem json_body_readable (ce : cloudeventdata) :
  plain (reason ce) = true ->
  plain (startTime ce) = true ->
  plain (name ce) = true ->
  plain (namespace ce) = true ->
  plain_but_quotes (message ce) = true ->
  Json.object (json_body ce) = Some (body_members ce).
Proof.
  intros Hr Ht Hn Hs Hm.
  rewrite json_body_shape, object_members.
  cbn [append String.length].
  rewrite (members_string _ "reason" (reason ce) (reason ce) _ eq_refl
             (fun r => string_tail_plain (reason ce) r Hr)).
  rewrite (members_string _ "start_time" (startTime ce) (startTime ce) _ eq_refl
             (fun r => string_tail_plain (startTime ce) r Ht)).
  rewrite (members_string _ "name" (name ce) (name ce) _ eq_refl
             (fun r => string_tail_plain (name ce) r Hn)).
  rewrite (members_string _ "namespace" (namespace ce) (namespace ce) _ eq_refl
             (fun r => string_tail_plain (namespace ce) r Hs)).
  rewrite (members_number _ "count" (count ce) _ eq_refl).
  rewrite (members_last_string _ "message" (escape_quotes (message ce))
             (escape_quotes (message ce)) eq_refl
             (fun r => string_tail_escaped (message ce) r Hm)).
  reflexivity.
Qed.

Lemma json_body_readable_witness :
  Json.object (json_body event_quoted) = Some (body_members event_quoted).
Proof.
  apply (json_body_readable event_quoted); reflexivity.
Defined.

(** X18: the escaping of the message loses nothing: dropping the
    backslash before every double quote of the escaped message gives the
    message back, whatever bytes it holds. *)
Theorem message_escaping_reversible (ce : cloudeventdata) :
  unescape_quotes (ReplaceAll (message ce) DQ (BS ++ DQ)) = message ce.
Proof. rewrite ReplaceAll_quotes. apply unescape_escape. Qed.

End BodyTheorems.

(* ================================================================== *)
(** * Decoding what was encoded *)
(* ================================================================== *)

Module Utf8More.
Import Go Spec MoreSpec Utf8Facts.

Lemma byteZ_byte_of_Z (x : Z) : 0 <= x < 256 -> byteZ (byte_of_Z x) = x.
Proof.
  intro H. unfold byteZ, byte_of_Z.
  rewrite N_ascii_embedding by lia. lia.
Qed.

Ltac decide_tests :=
  repeat (match goal with
          | |- context [if ?c then _ else _] =>
              let E := fresh "E" in
              destruct c eqn:E; b2p E;
              try (exfalso; Z.div_mod_to_equations; lia)
          end).

Ltac case_goal :=
  match goal with
  | |- context [if ?c then _ else _] =>
      let E := fresh "E" in destruct c eqn:E; b2p E
  | |- context [match ?s with EmptyString => _ | String _ _ => _ end] =>
      let a := fresh "a" in
      let s' := fresh "s" in
      destruct s as [|a s']; [|pose proof (byteZ_range a)]
  end.

(** Every rune the decoder yields is a scalar value. *)
Lemma decoded_scalar (s : string) : scalar (fst (DecodeRuneInString s)).
Proof.
  unfold scalar, DecodeRuneInString, RuneError, second3, second4, cont.
  repeat case_goal; cbn [fst]; lia.
Qed.

Ltac decide_goal :=
  repeat (match goal with
          | |- context [if (?a =? ?b) then _ else _] =>
              let E := fresh "E" in
              destruct (a =? b) eqn:E; b2p E;
              try (exfalso; Z.div_mod_to_equations; lia)
          | |- context [if ?c then _ else _] =>
              let E := fresh "E" in
              destruct c eqn:E; b2p E;
              try (exfalso; Z.div_mod_to_equations; lia)
          end).

(** Decoding what the encoder wrote for a scalar value gives the value and
    the number of bytes written. *)
Lemma decode_EncodeRune (r : rune) (s : string) :
  scalar r ->
  DecodeRuneInString (EncodeRune r ++ s) = (r, String.length (EncodeRune r)).
Proof.
  unfold scalar. intro H.
  unfold EncodeRune, bytes3, MaxRune, RuneError.
  decide_goal;
    cbn [append String.length];
    unfold DecodeRuneInString, second3, second4, cont; cbv zeta;
    rewrite ?byteZ_byte_of_Z by (Z.div_mod_to_equations; lia);
    decide_goal;
    first [reflexivity
          | apply (f_equal2 (@pair Z nat)); [Z.div_mod_to_equations; lia|reflexivity]].
Qed.

Lemma take_app_length (e s : string) : take (String.length e) (e ++ s) = e.
Proof. induction e as [|c e IH]; [now destruct s|]. cbn. now rewrite IH. Qed.

Lemma drop_app_length (e s : string) : drop (String.length e) (e ++ s) = s.
Proof. induction e as [|c e IH]; [now destruct s|exact IH]. Qed.

Lemma length_append (e s : string) :
  String.length (e ++ s) = (String.length e + String.length s)%nat.
Proof. induction e as [|c e IH]; [reflexivity|]. cbn. now rewrite IH. Qed.

Lemma EncodeRune_not_empty (r : rune) : EncodeRune r <> EmptyString.
Proof.
  unfold EncodeRune, bytes3.
  repeat match goal with |- context [if ?c then _ else _] => destruct c end;
    discriminate.
Qed.

(** Steps beyond the length of the string change nothing. *)
Lemma range_steps_enough (n : nat) :
  forall m s, (String.length s <= n)%nat -> (String.length s <= m)%nat ->
              range_steps n s = range_steps m s.
Proof.
  induction n as [|n IH]; intros m s Hn Hm.
  - destruct s; [now destruct m|simpl in Hn; lia].
  - destruct s as [|a0 s1]; [now destruct m|].
    destruct m as [|m]; [simpl in Hm; lia|].
    cbn [range_steps].
    pose proof (decode_width a0 s1) as Hw.
    destruct (DecodeRuneInString (String a0 s1)) as [r w]. cbn [snd] in Hw.
    f_equal. destruct w as [|w]; [lia|]. cbn [drop].
    pose proof (drop_length w s1). simpl in Hn, Hm. apply IH; lia.
Qed.

(** A range loop over the encoding of a scalar value followed by [s]
    yields the value first, then what it yields on [s]. *)
Lemma range_EncodeRune (r : rune) (s : string) :
  scalar r -> range (EncodeRune r ++ s) = (r, EncodeRune r) :: range s.
Proof.
  intro H. pose proof (decode_EncodeRune r s H) as Hd.
  pose proof (take_app_length (EncodeRune r) s) as Ht.
  pose proof (drop_app_length (EncodeRune r) s) as Hdr.
  pose proof (length_append (EncodeRune r) s) as Hl.
  pose proof (EncodeRune_not_empty r) as Hne.
  unfold range. destruct (EncodeRune r) as [|c e]; [congruence|].
  rewrite Hl. cbn [String.length Nat.add append range_steps] in *.
  rewrite Hd, Ht, Hdr. f_equal. apply range_steps_enough; lia.
Qed.

Lemma range_string_of_runes (rs : list rune) :
  Forall scalar rs ->
  range (string_of_runes rs) = map (fun r => (r, EncodeRune r)) rs.
Proof.
  intro H. induction H as [|r rs Hr _ IH]; [reflexivity|].
  unfold string_of_runes in *. cbn [map join fold_right].
  change (fold_right append EmptyString (map EncodeRune rs))
    with (join (map EncodeRune rs)).
  now rewrite (range_EncodeRune r _ Hr), IH.
Qed.

Lemma runes_scalar (s : string) : Forall scalar (runes s).
Proof.
  unfold runes. apply Forall_forall. intros r Hin.
  apply in_map_iff in Hin as [step [<- Hstep]].
  pose proof (range_decoded s) as Hd. rewrite Forall_forall in Hd.
  destruct (Hd step Hstep) as [a0 [s1 [w [Hdec _]]]].
  pose proof (decoded_scalar (String a0 s1)) as Hs. now rewrite Hdec in Hs.
Qed.

Lemma Forall_filter {A : Type} (P : A -> Prop) (f : A -> bool) (l : list A) :
  Forall P l -> Forall P (filter f l).
Proof.
  intro H. induction H as [|x l Hx _ IH]; [constructor|].
  cbn [filter]. destruct (f x); [now constructor|exact IH].
Qed.

Lemma filter_idem {A : Type} (f : A -> bool) (l : list A) :
  filter f (filter f l) = filter f l.
Proof.
  induction l as [|x l IH]; [reflexivity|]. cbn [filter].
  destruct (f x) eqn:E; [|exact IH]. cbn [filter]. now rewrite E, IH.
Qed.

(** The runes of a stripped string are the runes of the string that are
    not white space. *)
Lemma runes_removeWhitespace (s : string) :
  runes (removeWhitespace s) = filter (fun ch => negb (IsSpace ch)) (runes s).
Proof.
  unfold removeWhitespace. unfold runes at 1.
  rewrite range_string_of_runes by (apply Forall_filter, runes_scalar).
  rewrite map_map. cbn [fst]. apply map_id.
Qed.

Lemma encoded_well_formed (r : rune) : ill_formed (r, EncodeRune r) = false.
Proof.
  unfold ill_formed. cbn [fst snd]. destruct (r =? RuneError) eqn:E; [|reflexivity].
  apply Z.eqb_eq in E. subst r. reflexivity.
Qed.

End Utf8More.

Module HeaderMore.
Import Go Exporter Spec MoreSpec Samples Utf8Facts Utf8More.

(** X19: whatever the reason of an event is, well-formed UTF-8 or not, the
    part of the Ce-Type header written after the prefix and the version tag
    holds no white space character, is well-formed UTF-8, and is left as it
    is by a second removal of white space. *)
Theorem CeType_tail_is_clean (g : Globals) (pretext reason : string) :
  exists tail,
    configureCeType g pretext reason = pretext ++ "." ++ typeVersion g ++ "." ++ tail
    /\ Forall (fun ch => IsSpace ch = false) (runes tail)
    /\ ValidString tail = true
    /\ removeWhitespace tail = tail.
Proof.
  exists (removeWhitespace reason).
  split; [apply HeaderTheorems.configureCeType_written|]. split; [|split].
  - rewrite runes_removeWhitespace. apply Forall_forall. intros ch Hin.
    apply filter_In in Hin as [_ Hs]. now apply negb_true_iff in Hs.
  - unfold ValidString, removeWhitespace.
    rewrite range_string_of_runes by (apply Forall_filter, runes_scalar).
    apply forallb_forall. intros step Hin.
    apply in_map_iff in Hin as [r [<- _]]. now rewrite encoded_well_formed.
  - unfold removeWhitespace at 1. rewrite runes_removeWhitespace, filter_idem.
    reflexivity.
Qed.

End HeaderMore.

(* ================================================================== *)
(** * The Retry-After value and the pace of the producer *)
(* ================================================================== *)

Module RetryMore.
Import Go Exporter Spec MoreSpec Samples MoreSamples NumeralFacts DeliveryTheorems.

(** X20: for an answer 429 or 503 whose Retry-After value is the decimal
    form of a number of seconds [n] that fits a [time.Duration], negative
    numbers included, the delay of the retry branch is [n] seconds: a
    negative value is not raised to zero. *)
Theorem retry_after_decimal (res : Response) (n : Z) :
  throttled res ->
  HeaderGet (Header res) HEADER_RETRY_AFTER = Itoa n ->
  - 9223372036 <= n <= 9223372036 ->
  retryDelay res = n * Second.
Proof.
  intros Hthr Hval Hfit.
  destruct (retryDelay_cases res) as [Hparsed _].
  rewrite (Hparsed n Hthr).
  - apply int64_small. unfold MinInt64, MaxInt64, Second. lia.
  - rewrite Hval. apply Atoi_Itoa. unfold MinInt64, MaxInt64. lia.
Qed.

Lemma retry_after_decimal_witness :
  retryDelay (throttled_for (-5)) = -5 * Second.
Proof.
  apply (retry_after_decimal (throttled_for (-5)) (-5)).
  - left. reflexivity.
  - reflexivity.
  - lia.
Defined.

(** X21: a Retry-After value that starts with a byte other than a digit or
    a sign, such as the date form of the header, gives a zero delay for
    any status. *)
Theorem retry_after_date_ignored (res : Response) (c : ascii) (t : string) :
  HeaderGet (Header res) HEADER_RETRY_AFTER = String c t ->
  digit c = None ->
  c <> "+"%char ->
  c <> "-"%char ->
  retryDelay res = 0.
Proof.
  intros Hval Hd Hp Hm.
  destruct (retryDelay_cases res) as [_ Hzero]. apply Hzero. right.
  rewrite Hval. now apply Atoi_not_numeral.
Qed.

Lemma retry_after_date_ignored_witness : retryDelay throttled_until = 0.
Proof.
  apply (retry_after_date_ignored throttled_until "W"%char "ed, 21 Oct 2015 07:28:00 GMT").
  - reflexivity.
  - reflexivity.
  - discriminate.
  - discriminate.
Defined.

End RetryMore.

Module LifecycleMore.
Import Exporter MoreSpec Lifecycle LifecycleFacts Samples MoreSamples.

Lemma holding_le_length (ws : list (option Sched.addr)) :
  (holding ws <= List.length ws)%nat.
Proof. unfold holding. apply filter_length_le. Qed.

Lemma no_worker_no_export (evs : list event) :
  forall st st',
    (Sched.workers (core st) = [] -> Sched.exported (core st) = []) ->
    run evs st = Next st' ->
    Sched.workers (core st') = [] -> Sched.exported (core st') = [].
Proof.
  induction evs as [|ev evs IH]; intros st st' Hst Hrun; cbn [run] in Hrun.
  - now injection Hrun as <-.
  - destruct (step ev st) as [st1| |] eqn:Hs; try discriminate.
    apply (IH st1 st'); [|exact Hrun].
    destruct st as [[cell todo chan ws exported] cl gn].
    destruct ev as [[err|]| |[|w|w]|w];
      cbn [step with_core Sched.step core closed gone Sched.cell Sched.todo
           Sched.chan Sched.workers Sched.exported] in Hs, Hst.
    + now injection Hs as <-.
    + injection Hs as <-. cbn [core Sched.workers Sched.exported].
      intro H. apply app_eq_nil in H as [_ H]. discriminate H.
    + destruct cl; [discriminate|]. now injection Hs as <-.
    + destruct todo as [|[v|] todo]; try discriminate.
      * now injection Hs as <-.
      * destruct cl; [discriminate|].
        destruct (List.length chan <? CHAN_SZ)%nat; [|discriminate].
        now injection Hs as <-.
    + destruct (is_gone _ w); [discriminate|].
      destruct (nth_error ws w) as [[p|]|] eqn:Ew; try discriminate.
      destruct chan as [|p chan]; [discriminate|].
      injection Hs as <-. cbn [core Sched.workers Sched.exported].
      intro H. destruct ws; [now destruct w|]. now destruct w.
    + destruct (nth_error ws w) as [[p|]|] eqn:Ew; try discriminate.
      injection Hs as <-. cbn [core Sched.workers Sched.exported].
      intro H. destruct ws; [now destruct w|]. now destruct w.
    + destruct (nth_error ws w) as [[p|]|] eqn:Ew; try discriminate.
      destruct chan as [|p chan]; [|discriminate].
      destruct (cl && negb (is_gone _ w)); [|discriminate].
      now injection Hs as <-.
Qed.

(** X11: the producer is never far ahead of the workers: in every state
    the exporter reaches, the sends [pushLogs] has completed exceed the
    reads the workers have done by at most the capacity of the channel
    plus the number of workers; and as long as no [start] has succeeded,
    nothing is read and at most [CHAN_SZ] sends complete. *)
Theorem producer_never_far_ahead (ops : list producerOp) (evs : list event) (st : state) :
  run evs (boot ops) = Next st ->
  (sent ops st
   <= List.length (Sched.exported (core st)) + CHAN_SZ
      + List.length (Sched.workers (core st)))%nat
  /\ (Sched.workers (core st) = [] ->
      Sched.exported (core st) = [] /\ (sent ops st <= CHAN_SZ)%nat).
Proof.
  intro H.
  destruct (run_invariant ops evs _ _ (boot_invariant ops) H) as [Hcap [Hc _]].
  pose proof (holding_le_length (Sched.workers (core st))) as Hh.
  split; [unfold sent; lia|].
  intro Hws.
  pose proof (no_worker_no_export evs (boot ops) st (fun _ => eq_refl) H Hws) as Hex.
  split; [exact Hex|]. unfold sent. rewrite Hex, Hws in *. cbn [List.length] in *.
  unfold holding in Hc. cbn in Hc. lia.
Qed.

Lemma producer_never_far_ahead_witness :
  (sent two_ops (state_after busy_life)
   <= List.length (Sched.exported (core (state_after busy_life))) + CHAN_SZ
      + List.length (Sched.workers (core (state_after busy_life))))%nat
  /\ (Sched.workers (core (state_after busy_life)) = [] ->
      Sched.exported (core (state_after busy_life)) = []
      /\ (sent two_ops (state_after busy_life) <= CHAN_SZ)%nat).
Proof.
  apply (producer_never_far_ahead two_ops busy_life (state_after busy_life)).
  vm_compute. reflexivity.
Defined.

End LifecycleMore.
